(** * go-chat-app: task store and WebSocket chat relay

    A shallow embedding of [main.go] (the task API handlers and the chat
    handlers [handleConnections] / [handleMessages]) and of the chat-only
    variant [Go Chat Application/main.go], whose two chat handlers are
    textually the same.

    Package-level variables of the program are the fields of one record
    [World]; every handler is a function that takes the world and returns
    the new one.  What the program only reaches through libraries (the
    peer's transport, the order in which Go ranges over a map) is kept
    apart from the program's own variables and is named as such. *)

From stdpp Require Import gmap strings list fin_maps sorting.

#[local] Set Warnings "-clear-no-such-hyp".

Local Open Scope Z_scope.

(** ** Data *)

(** Go's [int] on the 64-bit targets: [nextID++] wraps around. *)
Definition int_min : Z := - 2 ^ 63.
Definition int_max : Z := 2 ^ 63 - 1.
Definition int_wrap (z : Z) : Z := (z + 2 ^ 63) `mod` 2 ^ 64 - 2 ^ 63.

(** [type Task struct] *)
Record Task := mkTask {
  ID : Z;
  Title : string;
  Description : string;
  Status : string;
}.

(** [type Message struct] *)
Record Message := mkMessage {
  Username : string;
  Content : string;
}.

#[global] Instance Task_eq_dec : EqDecision Task.
Proof. solve_decision. Defined.

#[global] Instance Message_eq_dec : EqDecision Message.
Proof. solve_decision. Defined.

(** A [*websocket.Conn]: the pointer is the key of the [clients] map. *)
Definition Conn := positive.

(** What the peer's end of a connection looks like to the program
    (gorilla/websocket is a dependency, not code of this repository):
    [conn_closed] is set by [Close]; [conn_closes] counts the calls of
    [Close], a record of what the program did rather than a state of the
    connection; [conn_broken] says that the transport has failed, which
    is the environment's doing; [conn_outbox] is what [WriteJSON] has
    delivered, oldest first. *)
Record ConnState := mkConn {
  conn_closed : bool;
  conn_closes : nat;
  conn_broken : bool;
  conn_outbox : list Message;
}.

Definition fresh_conn : ConnState := mkConn false 0 false [].

#[global] Instance ConnState_inhabited : Inhabited ConnState :=
  populate fresh_conn.

(** Lock discipline, recorded as the program runs: which package-level
    variable a statement touches, whether it writes, and which mutexes
    the running goroutine holds at that point. *)
Inductive Mutex := TasksMu.
Inductive Var := VTasks | VNextID | VClients.

#[global] Instance Mutex_eq_dec : EqDecision Mutex.
Proof. solve_decision. Defined.

#[global] Instance Var_eq_dec : EqDecision Var.
Proof. solve_decision. Defined.

Record Access := mkAccess {
  acc_var : Var;
  acc_write : bool;
  acc_held : list Mutex;
}.

(** One call of [WriteJSON]: the connection, the message, and whether the
    call returned a nil error. *)
Record WriteEvent := mkWrite {
  wr_conn : Conn;
  wr_msg : Message;
  wr_ok : bool;
}.

(** The package-level variables ([tasks], [nextID], [clients],
    [broadcast]); the connections that exist, with the pointer that the
    next successful upgrade will return (an allocation never returns a
    pointer already handed out); and three ghost fields that only record
    what happened: the calls of [WriteJSON], the accesses to shared
    variables, and the mutexes held by the goroutine that is running.
    [broadcast] is an unbuffered channel: a sender parked on it is a
    message waiting in the queue, first come first served. *)
Record World := mkWorld {
  tasks : list Task;
  nextID : Z;
  clients : gmap Conn bool;
  broadcast : list Message;
  conns : gmap Conn ConnState;
  next_conn : Conn;
  wlog : list WriteEvent;
  trace : list Access;
  held : list Mutex;
}.

(** The program at start: [var tasks []Task], [nextID int = 1],
    [clients = make(map...)], [broadcast = make(chan Message)]. *)
Definition init : World := mkWorld [] 1 ∅ [] ∅ 1%positive [] [] [].

Definition set_tasks (ts : list Task) (w : World) : World :=
  mkWorld ts (nextID w) (clients w) (broadcast w) (conns w)
    (next_conn w) (wlog w) (trace w) (held w).
Definition set_nextID (n : Z) (w : World) : World :=
  mkWorld (tasks w) n (clients w) (broadcast w) (conns w)
    (next_conn w) (wlog w) (trace w) (held w).
Definition set_clients (m : gmap Conn bool) (w : World) : World :=
  mkWorld (tasks w) (nextID w) m (broadcast w) (conns w)
    (next_conn w) (wlog w) (trace w) (held w).
Definition set_broadcast (q : list Message) (w : World) : World :=
  mkWorld (tasks w) (nextID w) (clients w) q (conns w)
    (next_conn w) (wlog w) (trace w) (held w).
Definition set_conns (cs : gmap Conn ConnState) (w : World) : World :=
  mkWorld (tasks w) (nextID w) (clients w) (broadcast w) cs
    (next_conn w) (wlog w) (trace w) (held w).
Definition set_next_conn (c : Conn) (w : World) : World :=
  mkWorld (tasks w) (nextID w) (clients w) (broadcast w) (conns w)
    c (wlog w) (trace w) (held w).
Definition set_wlog (l : list WriteEvent) (w : World) : World :=
  mkWorld (tasks w) (nextID w) (clients w) (broadcast w) (conns w)
    (next_conn w) l (trace w) (held w).
Definition set_trace (t : list Access) (w : World) : World :=
  mkWorld (tasks w) (nextID w) (clients w) (broadcast w) (conns w)
    (next_conn w) (wlog w) t (held w).
Definition set_held (h : list Mutex) (w : World) : World :=
  mkWorld (tasks w) (nextID w) (clients w) (broadcast w) (conns w)
    (next_conn w) (wlog w) (trace w) h.

(** ** Locks and accesses *)

Definition Lock (mu : Mutex) (w : World) : World := set_held (mu :: held w) w.
Definition Unlock (mu : Mutex) (w : World) : World :=
  set_held (filter (λ m, m ≠ mu) (held w)) w.

(** A statement of the running goroutine touches [v]. *)
Definition access (v : Var) (write : bool) (w : World) : World :=
  set_trace (trace w ++ [mkAccess v write (held w)]) w.

(** Two accesses by different goroutines conflict when they touch the
    same variable, one of them writes, and no mutex is held at both. *)
Definition racesb (a b : Access) : bool :=
  bool_decide (acc_var a = acc_var b)
  && (acc_write a || acc_write b)
  && forallb (λ m, negb (bool_decide (m ∈ acc_held b))) (acc_held a).

(** ** Task API handlers *)

Inductive Body :=
  | BodyTask (t : Task)
  | BodyTasks (ts : list Task)
  | BodyError (msg : string)
  | BodyEmpty.

Record Response := mkResponse { status : Z; body : Body }.

Definition StatusOK : Z := 200.
Definition StatusCreated : Z := 201.
Definition StatusNoContent : Z := 204.
Definition StatusBadRequest : Z := 400.
Definition StatusNotFound : Z := 404.

Definition with_ID (n : Z) (t : Task) : Task :=
  mkTask n (Title t) (Description t) (Status t).
Definition with_Title (s : string) (t : Task) : Task :=
  mkTask (ID t) s (Description t) (Status t).
Definition with_Description (s : string) (t : Task) : Task :=
  mkTask (ID t) (Title t) s (Status t).
Definition with_Status (s : string) (t : Task) : Task :=
  mkTask (ID t) (Title t) (Description t) s.

(** [createTask].  [req] is what [json.NewDecoder(r.Body).Decode(&task)]
    produced: [None] when it returned an error. *)
Definition createTask (req : option Task) (w : World) : Response * World :=
  match req with
  | None => (mkResponse StatusBadRequest (BodyError "decode"), w)
  | Some task =>
      let w := Lock TasksMu w in
      (* task.ID = nextID *)
      let w := access VNextID false w in
      let task := with_ID (nextID w) task in
      (* nextID++ *)
      let w := set_nextID (int_wrap (nextID w + 1)) (access VNextID true w) in
      let task :=
        if decide (Status task = "")
        then with_Status "pending" task else task in
      (* tasks = append(tasks, task) *)
      let w := set_tasks (tasks w ++ [task]) (access VTasks true w) in
      let w := Unlock TasksMu w in
      (mkResponse StatusCreated (BodyTask task), w)
  end.

(** [getTasks] *)
Definition getTasks (w : World) : Response * World :=
  let w := Lock TasksMu w in
  let w := access VTasks false w in
  let r := mkResponse StatusOK (BodyTasks (tasks w)) in
  (r, Unlock TasksMu w).

(** [for i, task := range tasks { if task.ID == id { ... return } }]:
    the index of the first task whose ID is [id]. *)
Fixpoint find_task (id : Z) (ts : list Task) : option nat :=
  match ts with
  | [] => None
  | task :: rest =>
      if decide (ID task = id) then Some 0%nat
      else S <$> find_task id rest
  end.

(** [getTask].  [id] is the result of [strconv.Atoi(idStr)]: [None] when
    it returned an error. *)
Definition getTask (id : option Z) (w : World) : Response * World :=
  match id with
  | None => (mkResponse StatusBadRequest (BodyError "Invalid task ID"), w)
  | Some id =>
      let w := Lock TasksMu w in
      let w := access VTasks false w in
      let r :=
        match find_task id (tasks w) ≫= (λ i, tasks w !! i) with
        | Some task => mkResponse StatusOK (BodyTask task)
        | None => mkResponse StatusNotFound (BodyError "Task not found")
        end in
      (r, Unlock TasksMu w)
  end.

(** The three guarded assignments of [updateTask] on [tasks[i]]. *)
Definition assign_Title (u : Task) (i : nat) (ts : list Task) : list Task :=
  if decide (Title u = "") then ts else alter (with_Title (Title u)) i ts.
Definition assign_Description (u : Task) (i : nat) (ts : list Task)
  : list Task :=
  if decide (Description u = "") then ts
  else alter (with_Description (Description u)) i ts.
Definition assign_Status (u : Task) (i : nat) (ts : list Task) : list Task :=
  if decide (Status u = "") then ts else alter (with_Status (Status u)) i ts.

(** [updateTask] *)
Definition updateTask (id : option Z) (req : option Task) (w : World)
  : Response * World :=
  match id with
  | None => (mkResponse StatusBadRequest (BodyError "Invalid task ID"), w)
  | Some id =>
      match req with
      | None => (mkResponse StatusBadRequest (BodyError "decode"), w)
      | Some updatedTask =>
          let w := Lock TasksMu w in
          let w := access VTasks false w in
          match find_task id (tasks w) with
          | Some i =>
              let w := access VTasks true w in
              let ts := assign_Title updatedTask i (tasks w) in
              let ts := assign_Description updatedTask i ts in
              let ts := assign_Status updatedTask i ts in
              let w := set_tasks ts w in
              let r :=
                match tasks w !! i with
                | Some t => mkResponse StatusOK (BodyTask t)
                | None => mkResponse StatusOK BodyEmpty
                end in
              (r, Unlock TasksMu w)
          | None =>
              (mkResponse StatusNotFound (BodyError "Task not found"),
               Unlock TasksMu w)
          end
      end
  end.

(** [deleteTask]: [tasks = append(tasks[:i], tasks[i+1:]...)] *)
Definition deleteTask (id : option Z) (w : World) : Response * World :=
  match id with
  | None => (mkResponse StatusBadRequest (BodyError "Invalid task ID"), w)
  | Some id =>
      let w := Lock TasksMu w in
      let w := access VTasks false w in
      match find_task id (tasks w) with
      | Some i =>
          let w := access VTasks true w in
          let w := set_tasks (take i (tasks w) ++ drop (S i) (tasks w)) w in
          (mkResponse StatusNoContent BodyEmpty, Unlock TasksMu w)
      | None =>
          (mkResponse StatusNotFound (BodyError "Task not found"),
           Unlock TasksMu w)
      end
  end.

(** ** WebSocket chat handlers *)

Definition conn (c : Conn) (w : World) : ConnState := conns w !!! c.

Definition closed_state (s : ConnState) : ConnState :=
  mkConn true (S (conn_closes s)) (conn_broken s) (conn_outbox s).
Definition deliver (msg : Message) (s : ConnState) : ConnState :=
  mkConn (conn_closed s) (conn_closes s) (conn_broken s)
    (conn_outbox s ++ [msg]).
Definition broken_state (s : ConnState) : ConnState :=
  mkConn (conn_closed s) (conn_closes s) true (conn_outbox s).

(** [c.Close()]: the error it returns is dropped at both call sites. *)
Definition Close (c : Conn) (w : World) : World :=
  set_conns (<[c := closed_state (conn c w)]> (conns w)) w.

(** A write goes through when the connection has not been closed and its
    transport works. *)
Definition state_writable (s : ConnState) : bool :=
  negb (conn_closed s) && negb (conn_broken s).
Definition writable (c : Conn) (w : World) : bool :=
  state_writable (conn c w).

(** [c.WriteJSON(msg)]: [true] for a nil error. *)
Definition WriteJSON (c : Conn) (msg : Message) (w : World) : bool * World :=
  let ok := writable c w in
  let w := set_wlog (wlog w ++ [mkWrite c msg ok]) w in
  if ok then (true, set_conns (<[c := deliver msg (conn c w)]> (conns w)) w)
  else (false, w).

(** [clients[ws] = true] and [delete(clients, ws)] *)
Definition clients_store (ws : Conn) (w : World) : World :=
  set_clients (<[ws := true]> (clients w)) (access VClients true w).
Definition clients_delete (ws : Conn) (w : World) : World :=
  set_clients (delete ws (clients w)) (access VClients true w).

(** [broadcast <- msg] and [msg := <-broadcast] *)
Definition chan_send (msg : Message) (w : World) : World :=
  set_broadcast (broadcast w ++ [msg]) w.
Definition chan_recv (w : World) : option (Message * World) :=
  match broadcast w with
  | [] => None
  | msg :: q => Some (msg, set_broadcast q w)
  end.

(** What [ws.ReadJSON(&msg)] returns: a decoded message or an error. *)
Inductive ReadResult :=
  | ReadOk (msg : Message)
  | ReadErr.

(** How a call of [handleConnections] stands: parked in [ReadJSON] with
    nothing to read yet, or returned to the HTTP server. *)
Inductive Outcome := Parked | Returned.

(** The [for] loop of [handleConnections].  [reads] is what the peer
    makes the successive calls of [ReadJSON] return; reading from a
    connection that was closed fails whatever the peer sent.  The result
    carries the reads that were not consumed. *)
Fixpoint read_loop (ws : Conn) (reads : list ReadResult) (w : World)
  : Outcome * list ReadResult * World :=
  if conn_closed (conn ws w) then
    (* err != nil: delete(clients, ws); break *)
    (Returned, reads, clients_delete ws w)
  else
    match reads with
    | [] => (Parked, [], w)
    | ReadErr :: rest => (Returned, rest, clients_delete ws w)
    | ReadOk msg :: rest => read_loop ws rest (chan_send msg w)
    end.

(** The loop, and [defer ws.Close()] once it is left. *)
Definition serve (ws : Conn) (reads : list ReadResult) (w : World)
  : Outcome * list ReadResult * World :=
  match read_loop ws reads w with
  | (Returned, rest, w) => (Returned, rest, Close ws w)
  | (Parked, rest, w) => (Parked, rest, w)
  end.

(** [upgrader.Upgrade(w, r, nil)]: when the handshake goes through
    ([ok]), a new connection, open and with nothing written to it yet;
    [None] for an error. *)
Definition Upgrade (ok : bool) (w : World) : option Conn * World :=
  if ok then
    let ws := next_conn w in
    (Some ws,
     set_next_conn (Pos.succ ws) (set_conns (<[ws := fresh_conn]> (conns w)) w))
  else (None, w).

(** [handleConnections] *)
Definition handleConnections (ok : bool) (reads : list ReadResult)
    (w : World) : Outcome * list ReadResult * World :=
  match Upgrade ok w with
  | (None, w) => (Returned, reads, w)
  | (Some ws, w) => serve ws reads (clients_store ws w)
  end.

(** Go ranges over a map in an order of its choosing, anew each time:
    any enumeration of the keys, each once. *)
Record RangeOrder := mkRangeOrder {
  range_keys : World → list Conn;
  range_keys_perm : ∀ w, range_keys w ≡ₚ (map_to_list (clients w)).*1;
}.

Definition go_range : RangeOrder :=
  mkRangeOrder (λ w, (map_to_list (clients w)).*1) (λ w, reflexivity _).

(** The write-failure branch: [client.Close(); delete(clients, client)] *)
Definition evict (client : Conn) (w : World) : World :=
  clients_delete client (Close client w).

(** The body of [for client := range clients]. *)
Definition range_body (msg : Message) (client : Conn) (w : World) : World :=
  match WriteJSON client msg w with
  | (true, w) => w
  | (false, w) => evict client w
  end.

(** The range loop over the keys in the order chosen; an entry deleted
    before it is reached is not produced. *)
Fixpoint range_loop (msg : Message) (keys : list Conn) (w : World) : World :=
  match keys with
  | [] => w
  | client :: rest =>
      match clients w !! client with
      | Some _ => range_loop msg rest (range_body msg client w)
      | None => range_loop msg rest w
      end
  end.

(** One round of the loop of [handleMessages], after the receive. *)
Definition fanout (R : RangeOrder) (msg : Message) (w : World) : World :=
  let w := access VClients false w in
  range_loop msg (range_keys R w) w.

(** [handleMessages]: the loop runs for as long as messages wait on the
    channel, then parks in the receive. *)
Fixpoint hub_loop (R : RangeOrder) (n : nat) (w : World) : World :=
  match n with
  | O => w
  | S n =>
      match chan_recv w with
      | None => w
      | Some (msg, w) => hub_loop R n (fanout R msg w)
      end
  end.

Definition handleMessages (R : RangeOrder) (w : World) : World :=
  hub_loop R (length (broadcast w)) w.

(** ** Runs of the whole program *)

(** What can happen next: a client connects, a parked reader is woken by
    more input, the hub runs, a transport breaks, a task request is
    served. *)
Inductive Event :=
  | EvConnect (ok : bool) (reads : list ReadResult)
  | EvRead (ws : Conn) (reads : list ReadResult)
  | EvHub
  | EvBreak (c : Conn)
  | EvCreate (req : option Task)
  | EvGetAll
  | EvGet (id : option Z)
  | EvUpdate (id : option Z) (req : option Task)
  | EvDelete (id : option Z).

Definition break_transport (c : Conn) (w : World) : World :=
  set_conns (<[c := broken_state (conn c w)]> (conns w)) w.

Definition step (R : RangeOrder) (ev : Event) (w : World)
  : option Response * World :=
  match ev with
  | EvConnect ok reads => (None, (handleConnections ok reads w).2)
  | EvRead ws reads => (None, (serve ws reads w).2)
  | EvHub => (None, handleMessages R w)
  | EvBreak c => (None, break_transport c w)
  | EvCreate req => let (r, w) := createTask req w in (Some r, w)
  | EvGetAll => let (r, w) := getTasks w in (Some r, w)
  | EvGet id => let (r, w) := getTask id w in (Some r, w)
  | EvUpdate id req => let (r, w) := updateTask id req w in (Some r, w)
  | EvDelete id => let (r, w) := deleteTask id w in (Some r, w)
  end.

Fixpoint run (R : RangeOrder) (evs : list Event) (w : World)
  : list Response * World :=
  match evs with
  | [] => ([], w)
  | ev :: evs =>
      let (r, w) := step R ev w in
      let (rs, w) := run R evs w in
      (from_option (λ x, [x]) [] r ++ rs, w)
  end.

(** The IDs handed out by the [201 Created] responses, in order. *)
Definition created_ids (rs : list Response) : list Z :=
  omap (λ r, match body r with
             | BodyTask t =>
                 if decide (status r = StatusCreated) then Some (ID t)
                 else None
             | _ => None
             end) rs.

(** The calls of [WriteJSON] in [l] that addressed [c]. *)
Definition writes_to (c : Conn) (l : list WriteEvent) : list WriteEvent :=
  filter (λ e, wr_conn e = c) l.

(** The scenario of the chat: three clients connect, and their readers
    park; then the first one sends a message, which its reader forwards
    to the channel. *)
Definition connA : Conn := 1%positive.
Definition connB : Conn := 2%positive.
Definition connC : Conn := 3%positive.
Definition hi : Message := mkMessage "alice" "hi".

Definition three_clients : World :=
  (run go_range
     [EvConnect true []; EvConnect true []; EvConnect true []] init).2.

Definition alice_says_hi : World :=
  (serve connA [ReadOk hi] three_clients).2.

(** The call of [WriteJSON] that a fan-out of [msg] started in [w] makes
    on [c], and what it leaves of the connection. *)
Definition attempt (msg : Message) (w : World) (c : Conn) : WriteEvent :=
  mkWrite c msg (writable c w).
Definition after_write (msg : Message) (s : ConnState) : ConnState :=
  if state_writable s then deliver msg s else closed_state s.

(** The recipients of a fan-out started in [w], in the order in which the
    range statement produces them. *)
Definition recipients (R : RangeOrder) (w : World) : list Conn :=
  range_keys R (access VClients false w).

(** The calls of [WriteJSON] made between [w] and [w']. *)
Definition new_writes (w w' : World) : list WriteEvent :=
  drop (length (wlog w)) (wlog w').

(** The accesses to shared variables made between [w] and [w']. *)
Definition new_accesses (w w' : World) : list Access :=
  drop (length (trace w)) (trace w').

(** ** Predicates of the statements *)

(** The chat side of the world is the same in [w] and [w']. *)
Definition chat_frame (w w' : World) : Prop :=
  clients w' = clients w ∧ broadcast w' = broadcast w
  ∧ conns w' = conns w ∧ wlog w' = wlog w ∧ next_conn w' = next_conn w.

(** The task store is the same in [w] and [w']. *)
Definition tasks_frame (w w' : World) : Prop :=
  tasks w' = tasks w ∧ nextID w' = nextID w.

(** The world once [handleConnections] has upgraded and registered its
    connection, which is [next_conn w]. *)
Definition accept (w : World) : World :=
  clients_store (next_conn w)
    (set_next_conn (Pos.succ (next_conn w))
       (set_conns (<[next_conn w := fresh_conn]> (conns w)) w)).

(** The reader forwards [oks], one send each, in the order read. *)
Definition forward (oks : list Message) (w : World) : World :=
  foldl (λ w msg, chan_send msg w) w oks.

(** The second half of the scenario: the transport of the second client
    breaks before the first client's message is fanned out. *)
Definition bob_breaks : World := break_transport connB alice_says_hi.

(** What a removal of [c] does between [w] and [w']: the key is deleted,
    the connection is closed, and nothing else of the program's state
    moves.  How many times [Close] has been called is a record kept
    about the connection, not a state of it, and is not constrained
    here. *)
Definition removal_of (c : Conn) (w w' : World) : Prop :=
  clients w' = delete c (clients w)
  ∧ conn_closed (conn c w') = true
  ∧ conn_broken (conn c w') = conn_broken (conn c w)
  ∧ conn_outbox (conn c w') = conn_outbox (conn c w)
  ∧ (∀ c', c' ≠ c →
       clients w' !! c' = clients w !! c' ∧ conn c' w' = conn c' w)
  ∧ broadcast w' = broadcast w
  ∧ tasks w' = tasks w
  ∧ nextID w' = nextID w
  ∧ wlog w' = wlog w.


(** Every registered connection is one that an upgrade has returned. *)
Definition alloc_ok (w : World) : Prop :=
  ∀ c, is_Some (clients w !! c) → (c < next_conn w)%positive.

(** Every stored ID is below the counter, and no two tasks share one. *)
Definition store_ok (w : World) : Prop :=
  Forall (λ t, ID t < nextID w) (tasks w) ∧ NoDup (ID <$> tasks w).

(** The task that [createTask] stores for the request [task] in [w]. *)
Definition created (task : Task) (w : World) : Task :=
  mkTask (nextID w) (Title task) (Description task)
    (if decide (Status task = "") then "pending" else Status task).

(** What one step does to the store: it keeps the invariant, and either
    hands out no ID and leaves the counter, or hands out the counter's
    value and moves the counter up by one. *)
Definition store_step (w w' : World) (ids : list Z) : Prop :=
  store_ok w'
  ∧ (ids = [] ∧ nextID w' = nextID w
     ∨ ids = [nextID w] ∧ nextID w' = nextID w + 1).

(** How the program is written: an access to [clients] is made with no
    mutex held, an access to [tasks] or [nextID] with [tasksMu] held. *)
Definition as_written (a : Access) : Prop :=
  match acc_var a with
  | VClients => acc_held a = []
  | VTasks | VNextID => acc_held a = [TasksMu]
  end.

(** Between [w] and [w'] the goroutine made accesses that are all as
    written, and it holds no mutex at either end. *)
Definition traced (w w' : World) : Prop :=
  held w' = [] ∧ ∃ l, trace w' = trace w ++ l ∧ Forall as_written l.

(** The stored task [t] after an update with the request body [u]. *)
Definition patched (u t : Task) : Task :=
  mkTask (ID t)
    (if decide (Title u = "") then Title t else Title u)
    (if decide (Description u = "") then Description t else Description u)
    (if decide (Status u = "") then Status t else Status u).

(** The IDs of the stored tasks, in the order of the list. *)
Definition stored_ids (w : World) : list Z := ID <$> tasks w.


(** Every registered connection is open, and is registered under the
    value [true]. *)
Definition registry_ok (w : World) : Prop :=
  map_Forall (λ c b, b = true ∧ conn_closed (conn c w) = false) (clients w).


(** The first stored task with ID [id], as the loops of [getTask],
    [updateTask] and [deleteTask] find it. *)
Definition first_task (id : Z) (ts : list Task) : option Task :=
  find_task id ts ≫= (λ i, ts !! i).

(** The stored IDs are strictly increasing along the list, positive and
    below the counter. *)
Definition store_sorted (w : World) : Prop :=
  StronglySorted Z.lt (stored_ids w)
  ∧ Forall (λ i, 1 ≤ i < nextID w) (stored_ids w).

(** * Properties *)

(** ** Connections and the registry *)

Lemma conn_set_eq c s w : conn c (set_conns (<[c := s]> (conns w)) w) = s.
Proof. unfold conn; simpl. apply lookup_total_insert_eq. Qed.

Lemma conn_set_ne c c' s w :
  c ≠ c' → conn c' (set_conns (<[c := s]> (conns w)) w) = conn c' w.
Proof. intros. unfold conn; simpl. by apply lookup_total_insert_ne. Qed.

Lemma conn_Close c c' w :
  conn c' (Close c w) =
  if decide (c' = c) then closed_state (conn c w) else conn c' w.
Proof.
  unfold Close. case_decide as E.
  - subst. apply conn_set_eq.
  - apply conn_set_ne. congruence.
Qed.

Lemma conn_clients_delete c c' w : conn c' (clients_delete c w) = conn c' w.
Proof. reflexivity. Qed.

Lemma new_writes_app w w' l : wlog w' = wlog w ++ l → new_writes w w' = l.
Proof. intros E. unfold new_writes. rewrite E. apply drop_app_length. Qed.

(** ** One iteration of the range loop *)

Section range_body.
Context (msg : Message) (client : Conn) (w : World).

Lemma range_body_tasks : tasks (range_body msg client w) = tasks w.
Proof. unfold range_body, WriteJSON. by destruct (writable client w). Qed.

Lemma range_body_nextID : nextID (range_body msg client w) = nextID w.
Proof. unfold range_body, WriteJSON. by destruct (writable client w). Qed.

Lemma range_body_broadcast :
  broadcast (range_body msg client w) = broadcast w.
Proof. unfold range_body, WriteJSON. by destruct (writable client w). Qed.

Lemma range_body_held : held (range_body msg client w) = held w.
Proof. unfold range_body, WriteJSON. by destruct (writable client w). Qed.

Lemma range_body_next_conn :
  next_conn (range_body msg client w) = next_conn w.
Proof. unfold range_body, WriteJSON. by destruct (writable client w). Qed.

Lemma range_body_wlog :
  wlog (range_body msg client w) = wlog w ++ [attempt msg w client].
Proof.
  unfold range_body, WriteJSON, attempt.
  by destruct (writable client w).
Qed.

Lemma range_body_clients :
  clients (range_body msg client w) =
  if writable client w then clients w else delete client (clients w).
Proof. unfold range_body, WriteJSON. by destruct (writable client w). Qed.

Lemma range_body_conn c :
  conn c (range_body msg client w) =
  if decide (c = client) then after_write msg (conn client w)
  else conn c w.
Proof.
  unfold range_body, WriteJSON, after_write, writable.
  destruct (state_writable (conn client w)) eqn:E; case_decide as Ec; subst.
  - unfold conn; simpl. apply lookup_total_insert_eq.
  - unfold conn; simpl. by apply lookup_total_insert_ne.
  - unfold evict. rewrite conn_clients_delete, conn_Close.
    by rewrite decide_True.
  - unfold evict. rewrite conn_clients_delete, conn_Close.
    by rewrite decide_False.
Qed.
End range_body.

(** ** The range loop *)

Lemma range_loop_frame msg keys w :
  tasks (range_loop msg keys w) = tasks w
  ∧ nextID (range_loop msg keys w) = nextID w
  ∧ broadcast (range_loop msg keys w) = broadcast w
  ∧ held (range_loop msg keys w) = held w
  ∧ next_conn (range_loop msg keys w) = next_conn w.
Proof.
  induction keys as [|k keys IH] in w |- *; simpl; [done|].
  destruct (clients w !! k); [|apply IH].
  destruct (IH (range_body msg k w)) as (-> & -> & -> & -> & ->).
  by rewrite range_body_tasks, range_body_nextID, range_body_broadcast,
    range_body_held, range_body_next_conn.
Qed.

(** When the keys are distinct and all registered, the loop writes to
    each of them once, in order, and drops exactly those whose write
    failed. *)
Lemma range_loop_spec msg keys w :
  NoDup keys →
  (∀ c, c ∈ keys → is_Some (clients w !! c)) →
  wlog (range_loop msg keys w) = wlog w ++ (attempt msg w <$> keys)
  ∧ (∀ c, clients (range_loop msg keys w) !! c =
          if decide (c ∈ keys)
          then (if writable c w then clients w !! c else None)
          else clients w !! c)
  ∧ (∀ c, conn c (range_loop msg keys w) =
          if decide (c ∈ keys) then after_write msg (conn c w)
          else conn c w).
Proof.
  induction keys as [|k keys IH] in w |- *; intros Hnd Hin.
  - simpl. rewrite app_nil_r. split; [done|].
    by split.
  - apply NoDup_cons in Hnd as [Hk Hnd].
    destruct (Hin k) as [b Hb]; [set_solver|].
    simpl. rewrite Hb.
    assert (Hc1 : ∀ c, c ≠ k →
      clients (range_body msg k w) !! c = clients w !! c).
    { intros c Hc. rewrite range_body_clients.
      destruct (writable k w); [done|]. by rewrite lookup_delete_ne. }
    assert (Hw1 : ∀ c, c ≠ k → writable c (range_body msg k w) = writable c w).
    { intros c Hc. unfold writable.
      by rewrite range_body_conn, decide_False. }
    destruct (IH (range_body msg k w) Hnd) as (Hl & Hc & Hs).
    { intros c Hc. rewrite Hc1 by set_solver. apply Hin; set_solver. }
    split; [|split].
    + rewrite Hl, range_body_wlog, <- app_assoc. f_equal. simpl. f_equal.
      apply list_fmap_ext. intros i c Hi. unfold attempt.
      rewrite Hw1; [done|]. apply list_elem_of_lookup_2 in Hi. set_solver.
    + intros c. rewrite Hc.
      destruct (decide (c = k)) as [->|Hne].
      * rewrite (decide_False _ _ Hk), decide_True by set_solver.
        rewrite range_body_clients.
        destruct (writable k w); [done|]. apply lookup_delete_eq.
      * rewrite Hc1, Hw1 by done.
        destruct (decide (c ∈ keys)).
        -- by rewrite decide_True by set_solver.
        -- by rewrite decide_False by set_solver.
    + intros c. rewrite Hs, range_body_conn.
      destruct (decide (c = k)) as [->|Hne].
      * by rewrite (decide_False _ _ Hk), decide_True by set_solver.
      * destruct (decide (c ∈ keys)).
        -- by rewrite decide_True by set_solver.
        -- by rewrite decide_False by set_solver.
Qed.

(** ** One fan-out *)

Lemma recipients_NoDup R w : NoDup (recipients R w).
Proof.
  unfold recipients. rewrite range_keys_perm. apply NoDup_fst_map_to_list.
Qed.

Lemma elem_of_recipients R w c :
  c ∈ recipients R w ↔ is_Some (clients w !! c).
Proof.
  unfold recipients. rewrite range_keys_perm. simpl.
  rewrite list_elem_of_fmap. split.
  - intros ([c' b] & -> & H). apply elem_of_map_to_list in H. by exists b.
  - intros [b H]. exists (c, b). split; [done|]. by apply elem_of_map_to_list.
Qed.

Lemma length_recipients R w : length (recipients R w) = size (clients w).
Proof.
  unfold recipients. rewrite range_keys_perm. simpl.
  by rewrite length_fmap, length_map_to_list.
Qed.

Lemma recipients_registered R w c :
  c ∈ recipients R w → is_Some (clients (access VClients false w) !! c).
Proof. apply elem_of_recipients. Qed.

Lemma fanout_frame R msg w :
  tasks (fanout R msg w) = tasks w
  ∧ nextID (fanout R msg w) = nextID w
  ∧ broadcast (fanout R msg w) = broadcast w
  ∧ held (fanout R msg w) = held w
  ∧ next_conn (fanout R msg w) = next_conn w.
Proof.
  unfold fanout.
  apply (range_loop_frame msg (recipients R w) (access VClients false w)).
Qed.

Lemma fanout_wlog R msg w :
  wlog (fanout R msg w) = wlog w ++ (attempt msg w <$> recipients R w).
Proof.
  unfold fanout.
  destruct (range_loop_spec msg (recipients R w) (access VClients false w))
    as (H & _ & _);
    [apply recipients_NoDup|apply recipients_registered|exact H].
Qed.

Lemma fanout_clients R msg w c :
  clients (fanout R msg w) !! c =
  if writable c w then clients w !! c else None.
Proof.
  unfold fanout.
  destruct (range_loop_spec msg (recipients R w) (access VClients false w))
    as (_ & H & _); [apply recipients_NoDup|apply recipients_registered|].
  unfold recipients in H. rewrite H. fold (recipients R w).
  change (writable c (access VClients false w)) with (writable c w).
  change (clients (access VClients false w)) with (clients w).
  case_decide as Hc; [done|].
  rewrite elem_of_recipients, <- eq_None_not_Some in Hc. rewrite Hc.
  by destruct (writable c w).
Qed.

Lemma fanout_conn R msg w c :
  conn c (fanout R msg w) =
  if decide (is_Some (clients w !! c)) then after_write msg (conn c w)
  else conn c w.
Proof.
  unfold fanout.
  destruct (range_loop_spec msg (recipients R w) (access VClients false w))
    as (_ & _ & H); [apply recipients_NoDup|apply recipients_registered|].
  unfold recipients in H. rewrite H. fold (recipients R w).
  change (conn c (access VClients false w)) with (conn c w).
  destruct (decide (c ∈ recipients R w)) as [Hc|Hc];
    rewrite elem_of_recipients in Hc.
  - by rewrite decide_True.
  - by rewrite decide_False.
Qed.

Lemma writes_to_attempts msg w keys c :
  NoDup keys →
  writes_to c (attempt msg w <$> keys) =
  if decide (c ∈ keys) then [attempt msg w c] else [].
Proof.
  unfold writes_to. induction keys as [|k keys IH]; intros Hnd.
  - by rewrite decide_False by set_solver.
  - apply NoDup_cons in Hnd as [Hk Hnd]. rewrite fmap_cons, filter_cons.
    simpl. rewrite (IH Hnd). destruct (decide (k = c)) as [->|Hne].
    + by rewrite (decide_False _ _ Hk), decide_True by set_solver.
    + destruct (decide (c ∈ keys)).
      * by rewrite decide_True by set_solver.
      * by rewrite decide_False by set_solver.
Qed.

Lemma hub_loop_recv R n msg q w :
  broadcast w = msg :: q →
  hub_loop R (S n) w = hub_loop R n (fanout R msg (set_broadcast q w)).
Proof. intros E. simpl. unfold chan_recv. by rewrite E. Qed.

Lemma after_write_ok msg s :
  state_writable s = true →
  conn_outbox (after_write msg s) = conn_outbox s ++ [msg].
Proof. intros E. unfold after_write. by rewrite E. Qed.

Lemma fanout_all_writable R msg w :
  map_Forall (λ c _, writable c w = true) (clients w) →
  clients (fanout R msg w) = clients w
  ∧ new_writes w (fanout R msg w) = attempt msg w <$> recipients R w
  ∧ ∀ c, is_Some (clients w !! c) →
      writes_to c (new_writes w (fanout R msg w)) = [mkWrite c msg true]
      ∧ conn_outbox (conn c (fanout R msg w)) = conn_outbox (conn c w) ++ [msg].
Proof.
  intros Hall.
  assert (Hlog : new_writes w (fanout R msg w)
                 = attempt msg w <$> recipients R w).
  { apply new_writes_app. by rewrite fanout_wlog. }
  split.
  { apply map_eq. intros c. rewrite fanout_clients.
    destruct (clients w !! c) as [b|] eqn:E.
    - by rewrite (Hall c b E).
    - by destruct (writable c w). }
  split; [exact Hlog|].
  intros c [b Hc]. rewrite Hlog. split.
  - rewrite writes_to_attempts by apply recipients_NoDup.
    rewrite decide_True by (apply elem_of_recipients; by exists b).
    unfold attempt. by rewrite (Hall c b Hc).
  - rewrite fanout_conn. rewrite decide_True by (by exists b).
    apply after_write_ok. apply (Hall c b Hc).
Qed.

(** C1. Fan-out completeness: when the hub takes a message [msg] off the
    channel while every registered connection accepts writes, the
    registry is left as it was, the hub calls [WriteJSON] as many times
    as there are registered connections, and each registered connection
    is written to exactly once, successfully, and gets exactly one copy
    of [msg] appended to what it had received. *)
Theorem fan_out_completeness R msg q w :
  broadcast w = msg :: q →
  map_Forall (λ c _, writable c w = true) (clients w) →
  let w' := hub_loop R 1 w in
  broadcast w' = q
  ∧ clients w' = clients w
  ∧ length (new_writes w w') = size (clients w)
  ∧ ∀ c, is_Some (clients w !! c) →
      writes_to c (new_writes w w') = [mkWrite c msg true]
      ∧ conn_outbox (conn c w') = conn_outbox (conn c w) ++ [msg].
Proof.
  intros Hq Hall w'. subst w'. rewrite (hub_loop_recv R 0 msg q w Hq). simpl.
  destruct (fanout_all_writable R msg (set_broadcast q w) Hall)
    as (Hm & Hlog & Hc).
  split; [by destruct (fanout_frame R msg (set_broadcast q w))
            as (_ & _ & H & _)|].
  split; [exact Hm|].
  split; [|exact Hc].
  change (new_writes w (fanout R msg (set_broadcast q w)))
    with (new_writes (set_broadcast q w) (fanout R msg (set_broadcast q w))).
  rewrite Hlog, length_fmap.
  exact (length_recipients R (set_broadcast q w)).
Qed.

Lemma fan_out_completeness_witness :
  broadcast alice_says_hi = [hi]
  ∧ map_Forall (λ c _, writable c alice_says_hi = true)
      (clients alice_says_hi)
  ∧ let w' := hub_loop go_range 1 alice_says_hi in
    broadcast w' = []
    ∧ clients w' = clients alice_says_hi
    ∧ length (new_writes alice_says_hi w') = size (clients alice_says_hi)
    ∧ ∀ c, is_Some (clients alice_says_hi !! c) →
        writes_to c (new_writes alice_says_hi w') = [mkWrite c hi true]
        ∧ conn_outbox (conn c w') =
          conn_outbox (conn c alice_says_hi) ++ [hi].
Proof.
  assert (H : map_Forall (λ c _, writable c alice_says_hi = true)
                (clients alice_says_hi)).
  { apply (bool_decide_unpack _). vm_compute. exact I. }
  split; [reflexivity|]. split; [exact H|].
  exact (fan_out_completeness go_range hi [] alice_says_hi eq_refl H).
Defined.

(** ** What each handler leaves alone *)

Ltac frame_cases :=
  repeat match goal with
    | |- context [match ?x with _ => _ end] => destruct x eqn:?
    end;
  simpl; repeat split; reflexivity.

Lemma createTask_chat req w : chat_frame w (createTask req w).2.
Proof. unfold createTask. frame_cases. Qed.

Lemma getTasks_chat w : chat_frame w (getTasks w).2.
Proof. unfold getTasks. frame_cases. Qed.

Lemma getTask_chat id w : chat_frame w (getTask id w).2.
Proof. unfold getTask. frame_cases. Qed.

Lemma updateTask_chat id req w : chat_frame w (updateTask id req w).2.
Proof. unfold updateTask. simpl. frame_cases. Qed.

Lemma deleteTask_chat id w : chat_frame w (deleteTask id w).2.
Proof. unfold deleteTask. simpl. frame_cases. Qed.

(** The reader's loop only ever sends on the channel and, when it is
    left, deletes its own key. *)
Lemma read_loop_frame ws reads w :
  let '(o, rest, w') := read_loop ws reads w in
  tasks_frame w w' ∧ conns w' = conns w ∧ wlog w' = wlog w
  ∧ next_conn w' = next_conn w
  ∧ (o = Parked ∧ clients w' = clients w
     ∨ o = Returned ∧ clients w' = delete ws (clients w)).
Proof.
  induction reads as [|r reads IH] in w |- *; simpl.
  - destruct (conn_closed (conn ws w)); simpl; unfold tasks_frame; eauto 10.
  - destruct (conn_closed (conn ws w)) eqn:E;
      [simpl; unfold tasks_frame; eauto 10|].
    destruct r as [msg|]; [|simpl; unfold tasks_frame; eauto 10].
    specialize (IH (chan_send msg w)).
    by destruct (read_loop ws reads (chan_send msg w)) as [[o rest] w'].
Qed.

Lemma serve_frame ws reads w :
  let '(o, rest, w') := serve ws reads w in
  tasks_frame w w' ∧ wlog w' = wlog w ∧ next_conn w' = next_conn w
  ∧ (o = Parked ∧ clients w' = clients w ∧ conns w' = conns w
     ∨ o = Returned ∧ clients w' = delete ws (clients w)
       ∧ conns w' = <[ws := closed_state (conn ws w)]> (conns w)).
Proof.
  unfold serve. pose proof (read_loop_frame ws reads w) as H.
  destruct (read_loop ws reads w) as [[o rest] w'].
  destruct H as (Ht & Hc & Hl & Hn & [[-> Hm]|[-> Hm]]).
  - eauto 10.
  - split; [exact Ht|]. split; [exact Hl|]. split; [exact Hn|]. right.
    split; [done|]. split; [exact Hm|].
    unfold Close, conn. simpl. by rewrite Hc.
Qed.

(** ** A connection that is not registered is not written to *)

Lemma writes_to_app c l1 l2 :
  writes_to c (l1 ++ l2) = writes_to c l1 ++ writes_to c l2.
Proof. apply filter_app. Qed.

Lemma fanout_absent R msg w c :
  clients w !! c = None →
  clients (fanout R msg w) !! c = None
  ∧ writes_to c (wlog (fanout R msg w)) = writes_to c (wlog w).
Proof.
  intros Hc. split.
  - rewrite fanout_clients, Hc. by destruct (writable c w).
  - rewrite fanout_wlog, writes_to_app.
    rewrite writes_to_attempts by apply recipients_NoDup.
    rewrite decide_False; [by rewrite app_nil_r|].
    rewrite elem_of_recipients, Hc. by intros [? ?].
Qed.

Lemma hub_loop_next_conn R n w :
  next_conn (hub_loop R n w) = next_conn w.
Proof.
  induction n as [|n IH] in w |- *; simpl; [done|].
  unfold chan_recv. destruct (broadcast w) as [|msg q]; [done|].
  rewrite IH. by destruct (fanout_frame R msg (set_broadcast q w))
    as (_ & _ & _ & _ & ->).
Qed.

Lemma hub_loop_absent R n w c :
  clients w !! c = None →
  clients (hub_loop R n w) !! c = None
  ∧ writes_to c (wlog (hub_loop R n w)) = writes_to c (wlog w).
Proof.
  induction n as [|n IH] in w |- *; intros Hc; simpl; [done|].
  unfold chan_recv. destruct (broadcast w) as [|msg q]; [done|].
  destruct (fanout_absent R msg (set_broadcast q w) c Hc) as [H1 H2].
  destruct (IH _ H1) as [H3 H4]. split; [done|]. by rewrite H4, H2.
Qed.

Lemma handleConnections_true reads w :
  handleConnections true reads w = serve (next_conn w) reads (accept w).
Proof. reflexivity. Qed.

Lemma step_absent R ev w c :
  (c < next_conn w)%positive →
  clients w !! c = None →
  clients (step R ev w).2 !! c = None
  ∧ writes_to c (wlog (step R ev w).2) = writes_to c (wlog w)
  ∧ (c < next_conn (step R ev w).2)%positive.
Proof.
  intros Hlt Hc.
  destruct ev as [[|] reads|ws reads| |c'|req| |id|id req|id]; unfold step.
  - rewrite handleConnections_true.
    assert (next_conn w ≠ c) by lia.
    pose proof (serve_frame (next_conn w) reads (accept w)) as H'.
    destruct (serve (next_conn w) reads (accept w)) as [[o rest] w']; simpl.
    destruct H' as (_ & -> & -> & [(_ & -> & _)|(_ & -> & _)]); simpl.
    + rewrite lookup_insert_ne by done. split; [done|]. split; [done|lia].
    + rewrite lookup_delete_ne, lookup_insert_ne by done.
      split; [done|]. split; [done|lia].
  - done.
  - pose proof (serve_frame ws reads w) as H'.
    destruct (serve ws reads w) as [[o rest] w']; simpl.
    destruct H' as (_ & -> & -> & [(_ & -> & _)|(_ & -> & _)]); simpl;
      [done|].
    split; [|done]. rewrite lookup_delete. by case_decide.
  - simpl. unfold handleMessages.
    destruct (hub_loop_absent R (length (broadcast w)) w c Hc) as [H1 H2].
    split; [exact H1|]. split; [exact H2|].
    by rewrite hub_loop_next_conn.
  - done.
  - destruct (createTask_chat req w) as (H1 & _ & _ & H2 & H3).
    destruct (createTask req w); simpl in *. by rewrite H1, H2, H3.
  - destruct (getTasks_chat w) as (H1 & _ & _ & H2 & H3).
    destruct (getTasks w); simpl in *. by rewrite H1, H2, H3.
  - destruct (getTask_chat id w) as (H1 & _ & _ & H2 & H3).
    destruct (getTask id w); simpl in *. by rewrite H1, H2, H3.
  - destruct (updateTask_chat id req w) as (H1 & _ & _ & H2 & H3).
    destruct (updateTask id req w); simpl in *. by rewrite H1, H2, H3.
  - destruct (deleteTask_chat id w) as (H1 & _ & _ & H2 & H3).
    destruct (deleteTask id w); simpl in *. by rewrite H1, H2, H3.
Qed.

Lemma run_cons R ev evs w :
  (run R (ev :: evs) w).2 = (run R evs (step R ev w).2).2.
Proof.
  simpl. destruct (step R ev w) as [r w1]. simpl.
  by destruct (run R evs w1).
Qed.

Lemma run_absent R evs w c :
  (c < next_conn w)%positive →
  clients w !! c = None →
  clients (run R evs w).2 !! c = None
  ∧ writes_to c (wlog (run R evs w).2) = writes_to c (wlog w).
Proof.
  induction evs as [|ev evs IH] in w |- *; intros Hlt Hc; [done|].
  rewrite run_cons.
  destruct (step_absent R ev w c Hlt Hc) as (H1 & H2 & H3).
  destruct (IH (step R ev w).2 H3 H1) as [H4 H5].
  split; [done|]. by rewrite H5, H2.
Qed.

Lemma hub_loop_registered R n w c :
  is_Some (clients (hub_loop R n w) !! c) → is_Some (clients w !! c).
Proof.
  induction n as [|n IH] in w |- *; simpl; [done|].
  unfold chan_recv. destruct (broadcast w) as [|msg q]; [done|].
  intros H. apply IH in H. rewrite fanout_clients in H.
  destruct (writable c (set_broadcast q w)); [done|]. by destruct H.
Qed.

(** Along a run, only connections that an upgrade has returned are in
    the registry. *)
Lemma step_alloc_ok R ev w : alloc_ok w → alloc_ok (step R ev w).2.
Proof.
  intros Hok c.
  destruct ev as [[|] reads|ws reads| |c'|req| |id|id req|id]; unfold step.
  - rewrite handleConnections_true.
    pose proof (serve_frame (next_conn w) reads (accept w)) as H'.
    destruct (serve (next_conn w) reads (accept w)) as [[o rest] w']; simpl.
    assert (Hin : is_Some (<[next_conn w := true]> (clients w) !! c) →
                  (c < Pos.succ (next_conn w))%positive).
    { destruct (decide (c = next_conn w)) as [->|Hne]; [lia|].
      rewrite lookup_insert_ne by done. intros H. apply Hok in H. lia. }
    destruct H' as (_ & _ & -> & [(_ & -> & _)|(_ & -> & _)]); simpl;
      [done|].
    rewrite lookup_delete. case_decide; [by intros [? ?]|done].
  - apply Hok.
  - pose proof (serve_frame ws reads w) as H'.
    destruct (serve ws reads w) as [[o rest] w']; simpl.
    destruct H' as (_ & _ & -> & [(_ & -> & _)|(_ & -> & _)]); simpl;
      [apply Hok|].
    rewrite lookup_delete. case_decide; [by intros [? ?]|apply Hok].
  - simpl. unfold handleMessages. rewrite hub_loop_next_conn.
    intros H. apply Hok. by eapply hub_loop_registered.
  - apply Hok.
  - destruct (createTask_chat req w) as (H1 & _ & _ & _ & H3).
    destruct (createTask req w); simpl in *. rewrite H1, H3. apply Hok.
  - destruct (getTasks_chat w) as (H1 & _ & _ & _ & H3).
    destruct (getTasks w); simpl in *. rewrite H1, H3. apply Hok.
  - destruct (getTask_chat id w) as (H1 & _ & _ & _ & H3).
    destruct (getTask id w); simpl in *. rewrite H1, H3. apply Hok.
  - destruct (updateTask_chat id req w) as (H1 & _ & _ & _ & H3).
    destruct (updateTask id req w); simpl in *. rewrite H1, H3. apply Hok.
  - destruct (deleteTask_chat id w) as (H1 & _ & _ & _ & H3).
    destruct (deleteTask id w); simpl in *. rewrite H1, H3. apply Hok.
Qed.

Lemma run_alloc_ok R evs w : alloc_ok w → alloc_ok (run R evs w).2.
Proof.
  induction evs as [|ev evs IH] in w |- *; intros Hok; [done|].
  rewrite run_cons. by apply IH, step_alloc_ok.
Qed.

Lemma init_alloc_ok : alloc_ok init.
Proof. intros c [b H]. simpl in H. by rewrite lookup_empty in H. Qed.

(** C2. Eviction isolation: in any state that the program can reach,
    when the hub fans out [msg] and the write to a registered connection
    [c] fails, [c] is gone from the registry afterwards while every
    connection whose write went through keeps its entry; every registered
    connection, [c] included, was written to exactly once in that
    fan-out, wherever it came in the order, and those that accept writes
    got the message; and whatever happens next, [c] stays out of the
    registry and no further write is addressed to it. *)
Theorem eviction_isolation R evs0 msg q c evs :
  let w := (run R evs0 init).2 in
  broadcast w = msg :: q →
  is_Some (clients w !! c) →
  writable c w = false →
  let w' := hub_loop R 1 w in
  clients w' !! c = None
  ∧ (∀ c', writable c' w = true → clients w' !! c' = clients w !! c')
  ∧ length (new_writes w w') = size (clients w)
  ∧ (∀ c', is_Some (clients w !! c') →
       writes_to c' (new_writes w w') = [mkWrite c' msg (writable c' w)])
  ∧ (∀ c', is_Some (clients w !! c') → writable c' w = true →
       conn_outbox (conn c' w') = conn_outbox (conn c' w) ++ [msg])
  ∧ clients (run R evs w').2 !! c = None
  ∧ writes_to c (wlog (run R evs w').2) = writes_to c (wlog w').
Proof.
  intros w Hq Hc Hfail w'.
  assert (Hlt : (c < next_conn w')%positive).
  { unfold w'. rewrite hub_loop_next_conn.
    by apply (run_alloc_ok R evs0 init init_alloc_ok). }
  revert Hlt. subst w'. generalize dependent w. intros w Hq Hc Hfail.
  rewrite (hub_loop_recv R 0 msg q w Hq). simpl. intros Hlt.
  set (w0 := set_broadcast q w).
  assert (Hlog : new_writes w (fanout R msg w0)
                 = attempt msg w <$> recipients R w0).
  { apply new_writes_app. by rewrite fanout_wlog. }
  assert (Hgone : clients (fanout R msg w0) !! c = None).
  { rewrite fanout_clients. change (writable c w0) with (writable c w).
    by rewrite Hfail. }
  split; [exact Hgone|].
  split.
  { intros c' Hok. rewrite fanout_clients.
    change (writable c' w0) with (writable c' w). by rewrite Hok. }
  split; [by rewrite Hlog, length_fmap, length_recipients|].
  split.
  { intros c' Hc'. rewrite Hlog.
    rewrite writes_to_attempts by apply recipients_NoDup.
    by rewrite decide_True by (by apply elem_of_recipients). }
  split.
  { intros c' Hc' Hok. rewrite fanout_conn. simpl.
    rewrite decide_True by done. by apply after_write_ok. }
  by apply run_absent.
Qed.

Lemma eviction_isolation_witness :
  let evs0 := [EvConnect true []; EvConnect true []; EvConnect true [];
               EvRead connA [ReadOk hi]; EvBreak connB] in
  let evs := [EvRead connB []; EvRead connA [ReadOk hi]; EvHub;
              EvConnect true [ReadOk hi]; EvHub] in
  let w := (run go_range evs0 init).2 in
  let w' := hub_loop go_range 1 w in
  (broadcast w = [hi] ∧ is_Some (clients w !! connB)
   ∧ writable connB w = false)
  ∧ clients w' !! connB = None
  ∧ (∀ c', writable c' w = true → clients w' !! c' = clients w !! c')
  ∧ length (new_writes w w') = size (clients w)
  ∧ (∀ c', is_Some (clients w !! c') →
       writes_to c' (new_writes w w') = [mkWrite c' hi (writable c' w)])
  ∧ (∀ c', is_Some (clients w !! c') → writable c' w = true →
       conn_outbox (conn c' w') = conn_outbox (conn c' w) ++ [hi])
  ∧ clients (run go_range evs w').2 !! connB = None
  ∧ writes_to connB (wlog (run go_range evs w').2) = writes_to connB (wlog w').
Proof.
  intros evs0 evs w.
  assert (H1 : broadcast w = [hi]) by reflexivity.
  assert (H2 : is_Some (clients w !! connB)) by (by exists true).
  assert (H3 : writable connB w = false) by reflexivity.
  split; [done|].
  exact (eviction_isolation go_range evs0 hi [] connB evs H1 H2 H3).
Defined.

(** ** The hub's loop *)

Lemma attempts_msg msg w keys :
  Forall (λ e, wr_msg e = msg) (attempt msg w <$> keys).
Proof. apply Forall_fmap, Forall_true. by intros c. Qed.

Lemma fanout_survivor R msg w c :
  is_Some (clients (fanout R msg w) !! c) →
  is_Some (clients w !! c)
  ∧ conn_outbox (conn c (fanout R msg w)) = conn_outbox (conn c w) ++ [msg].
Proof.
  rewrite fanout_clients, fanout_conn. unfold writable.
  destruct (state_writable (conn c w)) eqn:E; [|by intros [? ?]].
  intros Hc. split; [done|]. rewrite decide_True by done.
  by apply after_write_ok.
Qed.

Lemma hub_loop_fifo R q w :
  broadcast w = q →
  let w' := hub_loop R (length q) w in
  broadcast w' = []
  ∧ (∃ segs, wlog w' = wlog w ++ concat segs
       ∧ Forall2 (λ m seg, Forall (λ e, wr_msg e = m) seg) q segs)
  ∧ ∀ c, is_Some (clients w' !! c) →
      is_Some (clients w !! c)
      ∧ conn_outbox (conn c w') = conn_outbox (conn c w) ++ q.
Proof.
  induction q as [|msg q IH] in w |- *; intros Hq; simpl.
  - split; [done|]. split.
    + exists []. by rewrite app_nil_r.
    + intros c Hc. by rewrite app_nil_r.
  - unfold chan_recv. rewrite Hq.
    set (w0 := set_broadcast q w). set (w1 := fanout R msg w0).
    assert (Hq1 : broadcast w1 = q)
      by (by destruct (fanout_frame R msg w0) as (_ & _ & H & _)).
    destruct (IH w1 Hq1) as (Hb & (segs & Hl & Hs) & Hc).
    split; [exact Hb|]. split.
    + exists ((attempt msg w <$> recipients R w0) :: segs). split.
      * rewrite Hl. unfold w1. rewrite fanout_wlog. simpl.
        by rewrite <- app_assoc.
      * constructor; [apply attempts_msg|exact Hs].
    + intros c Hc'. destruct (Hc c Hc') as [Hc1 Ho1].
      destruct (fanout_survivor R msg w0 c Hc1) as [Hc0 Ho0].
      split; [exact Hc0|]. rewrite Ho1. unfold w1. rewrite Ho0.
      by rewrite <- app_assoc.
Qed.

(** C3. FIFO delivery: the hub takes the messages off the channel in the
    order in which they arrived, and its calls of [WriteJSON] come in one
    block per message, the blocks in that same order: the fan-out of a
    message is over before the fan-out of the next one begins.  A
    connection that is still registered once the channel is drained was
    registered from the start and has received precisely those messages,
    in arrival order, after what it had before. *)
Theorem fifo_delivery R w :
  let w' := handleMessages R w in
  broadcast w' = []
  ∧ (∃ segs, wlog w' = wlog w ++ concat segs
       ∧ Forall2 (λ m seg, Forall (λ e, wr_msg e = m) seg)
           (broadcast w) segs)
  ∧ ∀ c, is_Some (clients w' !! c) →
      is_Some (clients w !! c)
      ∧ conn_outbox (conn c w') = conn_outbox (conn c w) ++ broadcast w.
Proof. by apply hub_loop_fifo. Qed.

(** ** The reader's loop *)




Lemma read_loop_closed ws reads w :
  conn_closed (conn ws w) = true →
  read_loop ws reads w = (Returned, reads, clients_delete ws w).
Proof. intros E. destruct reads; simpl; by rewrite E. Qed.

Lemma read_loop_error ws oks rest w :
  conn_closed (conn ws w) = false →
  read_loop ws ((ReadOk <$> oks) ++ ReadErr :: rest) w =
  (Returned, rest, clients_delete ws (forward oks w)).
Proof.
  unfold forward. induction oks as [|m oks IH] in w |- *; intros E; simpl.
  - by rewrite E.
  - rewrite E. by apply IH.
Qed.

Lemma serve_closed ws reads w :
  conn_closed (conn ws w) = true →
  serve ws reads w = (Returned, reads, Close ws (clients_delete ws w)).
Proof. intros E. unfold serve. by rewrite read_loop_closed. Qed.

Lemma serve_error ws oks rest w :
  conn_closed (conn ws w) = false →
  serve ws ((ReadOk <$> oks) ++ ReadErr :: rest) w =
  (Returned, rest, Close ws (clients_delete ws (forward oks w))).
Proof. intros E. unfold serve. by rewrite read_loop_error. Qed.

(** ** Removal *)

(** C4 (as the code has it). Deleting a key that is not in the registry
    leaves the registry as it is, on the reader's path and on the hub's.
    When the hub's write to a registered connection [c] fails and the
    reader of [c] then comes back from [ReadJSON], which fails on the
    closed connection, both removal paths have run on [c]: the reader
    returns without consuming input, its [delete] finds the key gone and
    changes nothing, [c] is closed and out of the registry, and [Close]
    has been called on [c] twice, once by each path; neither call is
    guarded by a test that the connection is still open. *)
Theorem removal_from_both_paths R msg q w c reads w0 c0 :
  (clients w0 !! c0 = None →
     clients (clients_delete c0 w0) = clients w0
     ∧ clients (evict c0 w0) = clients w0)
  ∧ (broadcast w = msg :: q →
     is_Some (clients w !! c) →
     writable c w = false →
     let w1 := hub_loop R 1 w in
     let '(o, rest, w2) := serve c reads w1 in
     o = Returned ∧ rest = reads
     ∧ clients w1 !! c = None
     ∧ clients w2 = clients w1
     ∧ conn_closed (conn c w2) = true
     ∧ conn_closes (conn c w1) = S (conn_closes (conn c w))
     ∧ conn_closes (conn c w2) = S (S (conn_closes (conn c w)))).
Proof.
  split.
  { intros Hc. unfold evict. simpl. by rewrite delete_id. }
  intros Hq Hc Hfail w1. subst w1.
  rewrite (hub_loop_recv R 0 msg q w Hq). simpl.
  set (w' := set_broadcast q w). set (w1 := fanout R msg w').
  assert (Hs : conn c w1 = closed_state (conn c w)).
  { unfold w1. rewrite fanout_conn. simpl. rewrite decide_True by done.
    change (conn c w') with (conn c w).
    unfold after_write. unfold writable in Hfail. by rewrite Hfail. }
  assert (Hgone : clients w1 !! c = None).
  { unfold w1. rewrite fanout_clients.
    change (writable c w') with (writable c w). by rewrite Hfail. }
  rewrite serve_closed by (by rewrite Hs).
  split; [done|]. split; [done|]. split; [done|].
  split; [simpl; by rewrite delete_id|].
  rewrite conn_Close, decide_True by done.
  rewrite conn_clients_delete, Hs. done.
Qed.

Lemma removal_from_both_paths_witness :
  let w := bob_breaks in
  let w1 := hub_loop go_range 1 w in
  (clients init !! connB = None ∧ broadcast w = [hi]
   ∧ is_Some (clients w !! connB) ∧ writable connB w = false)
  ∧ (clients (clients_delete connB init) = clients init
     ∧ clients (evict connB init) = clients init)
  ∧ let '(o, rest, w2) := serve connB [] w1 in
    o = Returned ∧ rest = []
    ∧ clients w1 !! connB = None
    ∧ clients w2 = clients w1
    ∧ conn_closed (conn connB w2) = true
    ∧ conn_closes (conn connB w1) = S (conn_closes (conn connB w))
    ∧ conn_closes (conn connB w2) = S (S (conn_closes (conn connB w))).
Proof.
  intros w w1.
  assert (H0 : clients init !! connB = None) by reflexivity.
  assert (H1 : broadcast w = [hi]) by reflexivity.
  assert (H2 : is_Some (clients w !! connB)) by (by exists true).
  assert (H3 : writable connB w = false) by reflexivity.
  split; [done|].
  destruct (removal_from_both_paths go_range hi [] w connB [] init connB)
    as [Ha Hb].
  split; [exact (Ha H0)|exact (Hb H1 H2 H3)].
Defined.

(** C4 (as the claim has it) fails: after the hub's write to the second
    client has failed and that client's reader has come back, [Close]
    has run twice on the connection, not once. *)
Lemma remove_twice_closes_twice :
  let w1 := hub_loop go_range 1 bob_breaks in
  let w2 := (serve connB [] w1).2 in
  conn_closes (conn connB bob_breaks) = 0%nat
  ∧ conn_closes (conn connB w2) = 2%nat
  ∧ conn_closes (conn connB w2) ≠ 1%nat.
Proof. by vm_compute. Qed.

Lemma removal_of_intro c w w' :
  clients w' = delete c (clients w) →
  conns w' = <[c := closed_state (conn c w)]> (conns w) →
  broadcast w' = broadcast w → tasks w' = tasks w → nextID w' = nextID w →
  wlog w' = wlog w →
  removal_of c w w'.
Proof.
  intros Hm Hs Hb Ht Hn Hl. unfold removal_of, conn.
  rewrite Hm, Hs, Hb, Ht, Hn, Hl, lookup_total_insert_eq.
  repeat split; try done.
  - by rewrite lookup_delete_ne.
  - by rewrite lookup_total_insert_ne.
Qed.

(** C5. The side effects of a removal: on the hub's write-failure path
    ([evict]) and on the reader's path (the read fails at once, or the
    connection was closed under the reader), the connection's key is
    deleted from the registry and the connection is closed, what it had
    received being kept; every other registry entry and every other
    connection, the channel, the task store and its counter, and the
    record of writes are as before. *)
Theorem removal_side_effects c w reads :
  removal_of c w (evict c w)
  ∧ (conn_closed (conn c w) = true ∨ head reads = Some ReadErr →
     (serve c reads w).1.1 = Returned
     ∧ removal_of c w (serve c reads w).2).
Proof.
  split.
  { by apply removal_of_intro. }
  intros H.
  assert (E : serve c reads w =
              (Returned, (serve c reads w).1.2,
               Close c (clients_delete c w))).
  { destruct (conn_closed (conn c w)) eqn:Ec.
    - by rewrite serve_closed.
    - destruct H as [?|H]; [done|].
      destruct reads as [|[m|] rest]; try done.
      pose proof (serve_error c [] rest w Ec) as Hs. simpl in Hs.
      by rewrite Hs. }
  rewrite E. simpl. split; [done|]. by apply removal_of_intro.
Qed.

Lemma removal_side_effects_witness :
  let w := alice_says_hi in
  head [ReadErr; ReadOk hi] = Some ReadErr
  ∧ removal_of connA w (evict connA w)
  ∧ (serve connA [ReadErr; ReadOk hi] w).1.1 = Returned
  ∧ removal_of connA w (serve connA [ReadErr; ReadOk hi] w).2.
Proof.
  intros w. split; [reflexivity|].
  destruct (removal_side_effects connA w [ReadErr; ReadOk hi]) as [Ha Hb].
  split; [exact Ha|]. apply Hb. right. reflexivity.
Defined.

(** ** Reader failure *)




(** ** The sender is a recipient *)

Lemma handleMessages_one R msg w :
  broadcast w = [msg] → handleMessages R w = hub_loop R 1 w.
Proof. intros E. unfold handleMessages. by rewrite E. Qed.

(** C7 (as the code has it). In the scenario of three registered
    clients, when the first one sends a message, the hub writes it once
    to each of the three: the second and the third client each receive
    exactly one copy, and so does the first, the sender, which is in the
    registry like the others. *)
Theorem sender_is_a_recipient R msg :
  let w := (serve connA [ReadOk msg] three_clients).2 in
  let w' := handleMessages R w in
  conn_outbox (conn connA w') = [msg]
  ∧ conn_outbox (conn connB w') = [msg]
  ∧ conn_outbox (conn connC w') = [msg]
  ∧ writes_to connA (wlog w') = [mkWrite connA msg true].
Proof.
  intros w w'. subst w'.
  assert (Hq : broadcast w = [msg]) by reflexivity.
  assert (Hall : map_Forall (λ c _, writable c w = true) (clients w)).
  { apply (bool_decide_unpack _). vm_compute. exact I. }
  rewrite (handleMessages_one R msg w Hq), (hub_loop_recv R 0 msg [] w Hq).
  simpl.
  destruct (fanout_all_writable R msg (set_broadcast [] w) Hall)
    as (_ & _ & H).
  destruct (H connA) as [HA1 HA2]; [by exists true|].
  destruct (H connB) as [_ HB]; [by exists true|].
  destruct (H connC) as [_ HC]; [by exists true|].
  rewrite HA2, HB, HC. by repeat split.
Qed.

(** C7 (as the claim has it) fails: the sender does get its own message
    back. *)
Lemma sender_gets_own_message :
  let w' := handleMessages go_range alice_says_hi in
  conn_outbox (conn connA alice_says_hi) = []
  ∧ conn_outbox (conn connA w') = [hi]
  ∧ mkWrite connA hi true ∈ wlog w'.
Proof. vm_compute. repeat split; try done. set_solver. Qed.

(** ** The task store *)

Lemma find_task_first id pre t post :
  Forall (λ x, ID x ≠ id) pre → ID t = id →
  find_task id (pre ++ t :: post) = Some (length pre).
Proof.
  intros Hpre Ht. induction Hpre as [|x pre Hx _ IH]; simpl.
  - by rewrite decide_True.
  - rewrite decide_False by done. by rewrite IH.
Qed.

Lemma find_task_Some id ts i :
  find_task id ts = Some i →
  ∃ pre t post, ts = pre ++ t :: post ∧ length pre = i ∧ ID t = id
    ∧ Forall (λ x, ID x ≠ id) pre.
Proof.
  induction ts as [|x ts IH] in i |- *; simpl; [done|].
  case_decide as Hx.
  - intros [= <-]. by exists [], x, ts.
  - destruct (find_task id ts) as [j|] eqn:E; simpl; [|done].
    intros [= <-]. destruct (IH j eq_refl) as (pre & t & post & -> & <- & ? & ?).
    exists (x :: pre), t, post. repeat split; try done. by constructor.
Qed.

Lemma alter_middle (f : Task → Task) pre t post :
  alter f (length pre) (pre ++ t :: post) = pre ++ f t :: post.
Proof.
  rewrite <- (Nat.add_0_r (length pre)) at 1. by rewrite alter_app_r.
Qed.

Lemma assign_middle u pre t post :
  assign_Status u (length pre)
    (assign_Description u (length pre)
       (assign_Title u (length pre) (pre ++ t :: post))) =
  pre ++
    mkTask (ID t)
      (if decide (Title u = "") then Title t else Title u)
      (if decide (Description u = "") then Description t else Description u)
      (if decide (Status u = "") then Status t else Status u) :: post.
Proof.
  unfold assign_Status, assign_Description, assign_Title.
  destruct t as [i ti de st].
  repeat case_decide; rewrite ?alter_middle; reflexivity.
Qed.

(** C9. Partial update: for a stored task with the requested ID,
    [updateTask] answers 200 with the task in which exactly the fields
    among Title, Description and Status that the request gives as
    non-empty strings are overwritten; a field sent empty keeps its
    stored value, the ID is kept whatever the request says, all other
    tasks keep their place and content, and the counter and the chat
    side are untouched. *)
Theorem updateTask_partial id u pre t post w :
  tasks w = pre ++ t :: post →
  ID t = id →
  Forall (λ x, ID x ≠ id) pre →
  let t' :=
    mkTask (ID t)
      (if decide (Title u = "") then Title t else Title u)
      (if decide (Description u = "") then Description t else Description u)
      (if decide (Status u = "") then Status t else Status u) in
  let '(r, w') := updateTask (Some id) (Some u) w in
  r = mkResponse StatusOK (BodyTask t')
  ∧ tasks w' = pre ++ t' :: post
  ∧ nextID w' = nextID w
  ∧ chat_frame w w'.
Proof.
  intros Hts Ht Hpre t'. unfold updateTask. simpl.
  rewrite Hts, (find_task_first id pre t post Hpre Ht). simpl.
  rewrite assign_middle. fold t'.
  rewrite list_lookup_middle by done.
  by repeat split.
Qed.

Lemma updateTask_partial_witness :
  let w := (run go_range
              [EvCreate (Some (mkTask 0 "a" "x" ""));
               EvCreate (Some (mkTask 0 "b" "y" "completed"));
               EvCreate (Some (mkTask 0 "c" "z" ""))] init).2 in
  let u := mkTask 77 "" "new" "" in
  let pre := [mkTask 1 "a" "x" "pending"] in
  let t := mkTask 2 "b" "y" "completed" in
  let post := [mkTask 3 "c" "z" "pending"] in
  (tasks w = pre ++ t :: post ∧ ID t = 2 ∧ Forall (λ x, ID x ≠ 2) pre)
  ∧ let '(r, w') := updateTask (Some 2) (Some u) w in
    r = mkResponse StatusOK (BodyTask (mkTask 2 "b" "new" "completed"))
    ∧ tasks w' = pre ++ mkTask 2 "b" "new" "completed" :: post
    ∧ nextID w' = nextID w
    ∧ chat_frame w w'.
Proof.
  intros w u pre t post.
  assert (H1 : tasks w = pre ++ t :: post) by reflexivity.
  assert (H2 : ID t = 2) by reflexivity.
  assert (H3 : Forall (λ x, ID x ≠ 2) pre) by (by repeat constructor).
  split; [done|].
  exact (updateTask_partial 2 u pre t post w H1 H2 H3).
Defined.

(** *** The ID counter *)

Lemma int_wrap_id z : int_min ≤ z ≤ int_max → int_wrap z = z.
Proof.
  unfold int_min, int_max, int_wrap. intros H.
  rewrite Z.mod_small; lia.
Qed.

Lemma createTask_spec task w :
  let '(r, w') := createTask (Some task) w in
  r = mkResponse StatusCreated (BodyTask (created task w))
  ∧ tasks w' = tasks w ++ [created task w]
  ∧ nextID w' = int_wrap (nextID w + 1)
  ∧ chat_frame w w'.
Proof.
  unfold createTask, created, chat_frame. simpl.
  destruct task as [i ti de st]; simpl. by case_decide.
Qed.

Lemma take_drop_middle_length (pre : list Task) t post :
  take (length pre) (pre ++ t :: post)
    ++ drop (S (length pre)) (pre ++ t :: post) = pre ++ post.
Proof.
  rewrite take_app_length. f_equal.
  rewrite cons_middle, app_assoc.
  apply drop_app_length'. rewrite length_app. simpl. lia.
Qed.

Lemma store_step_same w w' :
  store_ok w → tasks w' = tasks w → nextID w' = nextID w →
  store_step w w' [].
Proof.
  intros [H1 H2] Ht Hn. unfold store_step, store_ok.
  rewrite Ht, Hn. eauto.
Qed.

Lemma createTask_store req w :
  store_ok w → int_min ≤ nextID w < int_max →
  store_step w (createTask req w).2 (created_ids [(createTask req w).1]).
Proof.
  intros Hok Hn. destruct req as [task|]; [|by apply store_step_same].
  pose proof (createTask_spec task w) as H.
  destruct (createTask (Some task) w) as [r w'].
  destruct H as (-> & Ht & Hn' & _). simpl.
  rewrite int_wrap_id in Hn' by (unfold int_min, int_max in *; lia).
  destruct Hok as [Hlt Hnd]. split; [|by right].
  unfold store_ok. rewrite Ht, Hn'. split.
  - apply Forall_app. split.
    + eapply Forall_impl; [exact Hlt|]. simpl. intros; lia.
    + apply Forall_singleton. simpl. lia.
  - rewrite fmap_app. apply NoDup_app. split; [done|]. split.
    + intros x Hx Hx'. apply list_elem_of_singleton in Hx'. simpl in Hx'.
      apply list_elem_of_fmap in Hx as (t & -> & Hin).
      rewrite Forall_forall in Hlt. specialize (Hlt t Hin). lia.
    + apply NoDup_singleton.
Qed.

Lemma getTasks_store w :
  store_ok w → store_step w (getTasks w).2 (created_ids [(getTasks w).1]).
Proof. intros Hok. by apply store_step_same. Qed.

Lemma getTask_store id w :
  store_ok w → store_step w (getTask id w).2 (created_ids [(getTask id w).1]).
Proof.
  intros Hok. destruct id as [id|]; [|by apply store_step_same].
  unfold getTask. simpl.
  destruct (find_task id (tasks w) ≫= (λ i, tasks w !! i));
    by apply store_step_same.
Qed.

Lemma updateTask_store id req w :
  store_ok w →
  store_step w (updateTask id req w).2 (created_ids [(updateTask id req w).1]).
Proof.
  intros Hok. destruct id as [id|]; [|by apply store_step_same].
  destruct req as [u|]; [|by apply store_step_same].
  unfold updateTask. simpl.
  destruct (find_task id (tasks w)) as [i|] eqn:E;
    [|by apply store_step_same].
  apply find_task_Some in E as (pre & t & post & Hts & <- & Ht & Hpre).
  simpl. rewrite Hts, assign_middle, list_lookup_middle by done. simpl.
  destruct Hok as [Hlt Hnd]. rewrite Hts in Hlt, Hnd.
  split; [|by left]. unfold store_ok. simpl. split.
  - apply Forall_app in Hlt as [H1 H2]. apply Forall_cons in H2 as [H2 H3].
    apply Forall_app. split; [done|]. by constructor.
  - by rewrite fmap_app, fmap_cons in *.
Qed.

Lemma deleteTask_store id w :
  store_ok w →
  store_step w (deleteTask id w).2 (created_ids [(deleteTask id w).1]).
Proof.
  intros Hok. destruct id as [id|]; [|by apply store_step_same].
  unfold deleteTask. simpl.
  destruct (find_task id (tasks w)) as [i|] eqn:E;
    [|by apply store_step_same].
  apply find_task_Some in E as (pre & t & post & Hts & <- & Ht & Hpre).
  simpl. rewrite Hts, take_drop_middle_length.
  destruct Hok as [Hlt Hnd]. rewrite Hts in Hlt, Hnd.
  split; [|by left]. unfold store_ok. simpl. split.
  - apply Forall_app in Hlt as [H1 H2]. apply Forall_cons in H2 as [H2 H3].
    apply Forall_app. by split.
  - rewrite fmap_app, fmap_cons in Hnd. rewrite fmap_app.
    apply NoDup_app in Hnd as (H1 & H2 & H3).
    apply NoDup_cons in H3 as [H3 H4].
    apply NoDup_app. split; [done|]. split; [|done].
    intros x Hx Hx'. apply (H2 x Hx). set_solver.
Qed.

Lemma hub_loop_tasks R n w : tasks_frame w (hub_loop R n w).
Proof.
  unfold tasks_frame. induction n as [|n IH] in w |- *; simpl; [done|].
  unfold chan_recv. destruct (broadcast w) as [|msg q]; [done|].
  destruct (IH (fanout R msg (set_broadcast q w))) as [-> ->].
  by destruct (fanout_frame R msg (set_broadcast q w)) as (-> & -> & _).
Qed.

Lemma step_store R ev w :
  store_ok w → int_min ≤ nextID w < int_max →
  store_step w (step R ev w).2
    (created_ids (from_option (λ x, [x]) [] (step R ev w).1)).
Proof.
  intros Hok Hn.
  destruct ev as [[|] reads|ws reads| |c'|req| |id|id req|id]; unfold step.
  - rewrite handleConnections_true.
    pose proof (serve_frame (next_conn w) reads (accept w)) as H.
    destruct (serve (next_conn w) reads (accept w)) as [[o rest] w'].
    destruct H as ([Ht Hi] & _). by apply store_step_same.
  - by apply store_step_same.
  - pose proof (serve_frame ws reads w) as H.
    destruct (serve ws reads w) as [[o rest] w'].
    destruct H as ([Ht Hi] & _). by apply store_step_same.
  - destruct (hub_loop_tasks R (length (broadcast w)) w) as [Ht Hi].
    by apply store_step_same.
  - by apply store_step_same.
  - pose proof (createTask_store req w Hok Hn) as H.
    by destruct (createTask req w).
  - pose proof (getTasks_store w Hok) as H. by destruct (getTasks w).
  - pose proof (getTask_store id w Hok) as H. by destruct (getTask id w).
  - pose proof (updateTask_store id req w Hok) as H.
    by destruct (updateTask id req w).
  - pose proof (deleteTask_store id w Hok) as H.
    by destruct (deleteTask id w).
Qed.

Lemma run_step R ev evs w :
  run R (ev :: evs) w =
  (from_option (λ x, [x]) [] (step R ev w).1
     ++ (run R evs (step R ev w).2).1,
   (run R evs (step R ev w).2).2).
Proof.
  simpl. destruct (step R ev w) as [r w1]. simpl.
  by destruct (run R evs w1).
Qed.

Lemma created_ids_app l1 l2 :
  created_ids (l1 ++ l2) = created_ids l1 ++ created_ids l2.
Proof. apply omap_app. Qed.

Lemma run_store R evs w :
  store_ok w → int_min ≤ nextID w →
  nextID w + Z.of_nat (length evs) ≤ int_max →
  store_ok (run R evs w).2
  ∧ nextID w ≤ nextID (run R evs w).2 ≤ nextID w + Z.of_nat (length evs)
  ∧ Forall (λ i, nextID w ≤ i < nextID (run R evs w).2)
      (created_ids (run R evs w).1)
  ∧ StronglySorted Z.lt (created_ids (run R evs w).1).
Proof.
  induction evs as [|ev evs IH] in w |- *; intros Hok Hlo Hhi.
  - simpl. split; [done|]. split; [lia|]. split; constructor.
  - rewrite run_step. simpl fst. simpl snd.
    rewrite length_cons, Nat2Z.inj_succ in Hhi |- *.
    destruct (step_store R ev w Hok) as [Hok1 Hids]; [lia|].
    set (w1 := (step R ev w).2) in *.
    set (ids := created_ids (from_option (λ x, [x]) [] (step R ev w).1)) in *.
    assert (Hn1 : nextID w ≤ nextID w1 ≤ nextID w + 1)
      by (destruct Hids as [[_ ->]|[_ ->]]; lia).
    destruct (IH w1 Hok1) as (Hok2 & Hn2 & Hall & Hsort); [lia..|].
    split; [done|]. split; [lia|].
    rewrite created_ids_app. fold ids.
    assert (Hids' : Forall (λ i, nextID w ≤ i < nextID w1) ids).
    { destruct Hids as [[-> _]|[-> E]]; repeat constructor; lia. }
    split.
    + apply Forall_app. split.
      * eapply Forall_impl; [exact Hids'|]. simpl. intros; lia.
      * eapply Forall_impl; [exact Hall|]. simpl. intros; lia.
    + apply StronglySorted_app_2; [|by destruct Hids as [[-> _]|[-> _]];
        repeat constructor|done].
      intros x1 x2 Hx1 Hx2. rewrite Forall_forall in Hids', Hall.
      specialize (Hids' x1 Hx1). specialize (Hall x2 Hx2). lia.
Qed.

(** C10. IDs: [createTask] gives the new task the counter's current
    value, stores it at the end of the list with the request's title and
    description, with status "pending" when the request's status is
    empty and the request's status otherwise, and moves the counter up
    by one (Go's [int] addition).  From the program's start, over any
    run of task requests and chat events that is shorter than the range
    of [int], the IDs handed out by successive [createTask] calls are
    strictly increasing and no two stored tasks share an ID. *)
Theorem createTask_ids R task w evs :
  (let '(r, w') := createTask (Some task) w in
   ∃ t, r = mkResponse StatusCreated (BodyTask t)
     ∧ ID t = nextID w
     ∧ Title t = Title task
     ∧ Description t = Description task
     ∧ Status t = (if decide (Status task = "") then "pending"
                   else Status task)
     ∧ tasks w' = tasks w ++ [t]
     ∧ nextID w' = int_wrap (nextID w + 1))
  ∧ (Z.of_nat (length evs) < int_max →
     StronglySorted Z.lt (created_ids (run R evs init).1)
     ∧ NoDup (ID <$> tasks (run R evs init).2)).
Proof.
  split.
  - pose proof (createTask_spec task w) as H.
    destruct (createTask (Some task) w) as [r w'].
    destruct H as (-> & -> & -> & _). by exists (created task w).
  - intros Hlen.
    destruct (run_store R evs init) as ([_ Hnd] & _ & _ & Hs).
    + split; constructor.
    + by unfold int_min.
    + simpl. lia.
    + done.
Qed.

Lemma createTask_ids_witness :
  let evs :=
    [EvCreate (Some (mkTask 9 "a" "" "")); EvConnect true [ReadOk hi];
     EvCreate (Some (mkTask 9 "b" "" "completed")); EvDelete (Some 1);
     EvCreate None; EvHub; EvCreate (Some (mkTask 1 "c" "" ""));
     EvUpdate (Some 3) (Some (mkTask 2 "" "d" ""))] in
  Z.of_nat (length evs) < int_max
  ∧ created_ids (run go_range evs init).1 = [1; 2; 3]
  ∧ ID <$> tasks (run go_range evs init).2 = [2; 3]
  ∧ StronglySorted Z.lt (created_ids (run go_range evs init).1)
  ∧ NoDup (ID <$> tasks (run go_range evs init).2).
Proof.
  intros evs.
  assert (H : Z.of_nat (length evs) < int_max) by reflexivity.
  split; [exact H|]. split; [reflexivity|]. split; [reflexivity|].
  exact (proj2 (createTask_ids go_range (mkTask 9 "a" "" "") init evs) H).
Defined.

(** ** Lock discipline *)

Lemma traced_refl w : held w = [] → traced w w.
Proof. intros H. split; [done|]. exists []. by rewrite app_nil_r. Qed.

Lemma traced_trans w1 w2 w3 : traced w1 w2 → traced w2 w3 → traced w1 w3.
Proof.
  intros [_ (l1 & E1 & H1)] [Hh (l2 & E2 & H2)]. split; [done|].
  exists (l1 ++ l2). rewrite E2, E1, app_assoc. split; [done|].
  by apply Forall_app.
Qed.

Lemma traced_same w w' :
  held w = [] → held w' = held w → trace w' = trace w → traced w w'.
Proof.
  intros H Hh Ht. split; [congruence|]. exists [].
  by rewrite app_nil_r.
Qed.

Lemma traced_clients_access b w w' :
  held w = [] → held w' = held w →
  trace w' = trace (access VClients b w) → traced w w'.
Proof.
  intros H Hh Ht. split; [congruence|].
  exists [mkAccess VClients b []]. rewrite Ht. simpl. rewrite H.
  split; [done|]. by repeat constructor.
Qed.

Ltac traced_api :=
  match goal with
  | H : held ?w = [] |- _ =>
      destruct w; simpl in H; subst; split; [reflexivity|];
      simpl; eexists; split;
      [rewrite <- ?app_assoc; reflexivity|by repeat constructor]
  end.

Lemma createTask_traced req w : held w = [] → traced w (createTask req w).2.
Proof.
  intros H. destruct req as [task|]; [|by apply traced_refl].
  unfold createTask. traced_api.
Qed.

Lemma getTasks_traced w : held w = [] → traced w (getTasks w).2.
Proof. intros H. unfold getTasks. traced_api. Qed.

Lemma getTask_traced id w : held w = [] → traced w (getTask id w).2.
Proof.
  intros H. destruct id as [id|]; [|by apply traced_refl].
  unfold getTask. traced_api.
Qed.

Lemma updateTask_traced id req w :
  held w = [] → traced w (updateTask id req w).2.
Proof.
  intros H. destruct id as [id|]; [|by apply traced_refl].
  destruct req as [u|]; [|by apply traced_refl].
  unfold updateTask. simpl.
  destruct (find_task id (tasks w)); traced_api.
Qed.

Lemma deleteTask_traced id w : held w = [] → traced w (deleteTask id w).2.
Proof.
  intros H. destruct id as [id|]; [|by apply traced_refl].
  unfold deleteTask. simpl.
  destruct (find_task id (tasks w)); traced_api.
Qed.

Lemma range_body_traced msg k w : held w = [] → traced w (range_body msg k w).
Proof.
  intros H. unfold range_body, WriteJSON.
  destruct (writable k w).
  - by apply traced_same.
  - by apply (traced_clients_access true).
Qed.

Lemma range_loop_traced msg keys w :
  held w = [] → traced w (range_loop msg keys w).
Proof.
  induction keys as [|k keys IH] in w |- *; intros H; simpl.
  - by apply traced_refl.
  - destruct (clients w !! k); [|by apply IH].
    pose proof (range_body_traced msg k w H) as Hb.
    eapply traced_trans; [exact Hb|]. apply IH. by destruct Hb.
Qed.

Lemma fanout_traced R msg w : held w = [] → traced w (fanout R msg w).
Proof.
  intros H. unfold fanout.
  apply (traced_trans w (access VClients false w));
    [by apply (traced_clients_access false)|].
  by apply range_loop_traced.
Qed.

Lemma hub_loop_traced R n w : held w = [] → traced w (hub_loop R n w).
Proof.
  induction n as [|n IH] in w |- *; intros H; simpl;
    [by apply traced_refl|].
  unfold chan_recv. destruct (broadcast w) as [|msg q];
    [by apply traced_refl|].
  pose proof (fanout_traced R msg (set_broadcast q w) H) as Hf.
  eapply traced_trans; [|apply IH; by destruct Hf].
  exact Hf.
Qed.

Lemma read_loop_traced ws reads w :
  held w = [] → traced w (read_loop ws reads w).2.
Proof.
  induction reads as [|r reads IH] in w |- *; intros H; simpl.
  - destruct (conn_closed (conn ws w)); simpl;
      [by apply (traced_clients_access true)|by apply traced_refl].
  - destruct (conn_closed (conn ws w)); simpl;
      [by apply (traced_clients_access true)|].
    destruct r as [msg|]; simpl; [|by apply (traced_clients_access true)].
    apply (traced_trans w (chan_send msg w)); [by apply traced_same|].
    by apply IH.
Qed.

Lemma serve_traced ws reads w : held w = [] → traced w (serve ws reads w).2.
Proof.
  intros H. unfold serve. pose proof (read_loop_traced ws reads w H) as Hr.
  destruct (read_loop ws reads w) as [[[|] rest] w']; simpl in *; [done|].
  eapply traced_trans; [exact Hr|]. destruct Hr as [Hh _].
  by apply traced_same.
Qed.

Lemma step_traced R ev w : held w = [] → traced w (step R ev w).2.
Proof.
  intros H.
  destruct ev as [[|] reads|ws reads| |c'|req| |id|id req|id]; unfold step.
  - rewrite handleConnections_true.
    apply (traced_trans w (accept w));
      [by apply (traced_clients_access true)|].
    by apply serve_traced.
  - by apply traced_refl.
  - by apply serve_traced.
  - by apply hub_loop_traced.
  - by apply traced_same.
  - pose proof (createTask_traced req w H). by destruct (createTask req w).
  - pose proof (getTasks_traced w H). by destruct (getTasks w).
  - pose proof (getTask_traced id w H). by destruct (getTask id w).
  - pose proof (updateTask_traced id req w H).
    by destruct (updateTask id req w).
  - pose proof (deleteTask_traced id w H). by destruct (deleteTask id w).
Qed.

Lemma run_traced R evs w : held w = [] → traced w (run R evs w).2.
Proof.
  induction evs as [|ev evs IH] in w |- *; intros H.
  - by apply traced_refl.
  - rewrite run_cons. pose proof (step_traced R ev w H) as Hs.
    eapply traced_trans; [exact Hs|]. apply IH. by destruct Hs.
Qed.

(** C8 (what the code does). Over every run of the program from its
    start, each access to the [clients] map, whether the store on accept,
    the delete in the reader, or the range and the delete in the hub, is
    made with no mutex held, while each access to [tasks] and [nextID] is
    made with [tasksMu] held.  In particular, with three clients
    registered and a message waiting on the channel, the reader of the
    second client, on a read error, writes the map, and the hub, fanning
    out, reads it; the two goroutines hold no mutex in common, so the
    accesses conflict. *)
Theorem registry_unsynchronized R evs :
  Forall as_written (trace (run R evs init).2)
  ∧ let w := alice_says_hi in
    let reader := new_accesses w (serve connB [ReadErr] w).2 in
    let hub := new_accesses w (hub_loop go_range 1 w) in
    reader = [mkAccess VClients true []]
    ∧ hub = [mkAccess VClients false []]
    ∧ racesb (mkAccess VClients true []) (mkAccess VClients false []) = true.
Proof.
  split.
  - destruct (run_traced R evs init eq_refl) as (_ & l & -> & Hl).
    exact Hl.
  - by vm_compute.
Qed.

(** * Further properties of the handlers *)

(** ** Looking a task up *)

Lemma find_task_None id ts :
  find_task id ts = None → Forall (λ x, ID x ≠ id) ts.
Proof.
  induction ts as [|x ts IH]; simpl; [by constructor|].
  case_decide; [done|].
  destruct (find_task id ts); simpl; [done|]. intros _. constructor; auto.
Qed.

Lemma find_task_cases id ts :
  (∃ pre t post, ts = pre ++ t :: post ∧ ID t = id
     ∧ Forall (λ x, ID x ≠ id) pre ∧ find_task id ts = Some (length pre))
  ∨ (Forall (λ x, ID x ≠ id) ts ∧ find_task id ts = None).
Proof.
  destruct (find_task id ts) as [i|] eqn:E.
  - left. destruct (find_task_Some id ts i E)
      as (pre & t & post & -> & <- & Ht & Hpre).
    by exists pre, t, post.
  - right. split; [by apply find_task_None|done].
Qed.

(** X1. [getTask] answers with the first stored task that has the
    requested ID, status 200, when there is one, and with 404 "Task not
    found" exactly when no stored task has that ID; either way the store,
    the counter and the chat side are as before. *)
Theorem getTask_lookup id w :
  let '(r, w') := getTask (Some id) w in
  tasks_frame w w' ∧ chat_frame w w'
  ∧ ((∃ pre t post, tasks w = pre ++ t :: post ∧ ID t = id
        ∧ Forall (λ x, ID x ≠ id) pre
        ∧ r = mkResponse StatusOK (BodyTask t))
     ∨ (Forall (λ x, ID x ≠ id) (tasks w)
        ∧ r = mkResponse StatusNotFound (BodyError "Task not found"))).
Proof.
  unfold getTask. simpl. split; [done|]. split; [done|].
  destruct (find_task_cases id (tasks w))
    as [(pre & t & post & Hts & Ht & Hpre & ->)|[Hall ->]]; simpl.
  - rewrite Hts, list_lookup_middle by done. left. by exists pre, t, post.
  - by right.
Qed.

(** ** What a request does to the list *)

Lemma first_task_cons id x ts :
  first_task id (x :: ts) =
  if decide (ID x = id) then Some x else first_task id ts.
Proof.
  unfold first_task. simpl. case_decide; [done|].
  by destruct (find_task id ts).
Qed.

Lemma first_task_skip id pre t post :
  ID t ≠ id → first_task id (pre ++ t :: post) = first_task id (pre ++ post).
Proof.
  intros Ht. induction pre as [|x pre IH]; simpl.
  - by rewrite first_task_cons, decide_False.
  - rewrite !first_task_cons. by rewrite IH.
Qed.

Lemma first_task_absent id ts :
  Forall (λ x, ID x ≠ id) ts → first_task id ts = None.
Proof.
  induction 1 as [|x ts Hx _ IH]; [done|].
  by rewrite first_task_cons, decide_False.
Qed.

Lemma first_task_here id pre t post :
  Forall (λ x, ID x ≠ id) pre → ID t = id →
  first_task id (pre ++ t :: post) = Some t.
Proof.
  intros Hpre Ht. induction Hpre as [|x pre Hx _ IH]; simpl.
  - by rewrite first_task_cons, decide_True.
  - by rewrite first_task_cons, decide_False.
Qed.

Lemma getTask_response id w :
  (getTask (Some id) w).1 =
  match first_task id (tasks w) with
  | Some t => mkResponse StatusOK (BodyTask t)
  | None => mkResponse StatusNotFound (BodyError "Task not found")
  end.
Proof. reflexivity. Qed.

Lemma deleteTask_cases id w :
  let '(r, w') := deleteTask (Some id) w in
  nextID w' = nextID w ∧ chat_frame w w'
  ∧ ((∃ pre t post, tasks w = pre ++ t :: post ∧ ID t = id
        ∧ Forall (λ x, ID x ≠ id) pre
        ∧ tasks w' = pre ++ post
        ∧ r = mkResponse StatusNoContent BodyEmpty)
     ∨ (Forall (λ x, ID x ≠ id) (tasks w)
        ∧ tasks w' = tasks w
        ∧ r = mkResponse StatusNotFound (BodyError "Task not found"))).
Proof.
  unfold deleteTask. simpl.
  destruct (find_task_cases id (tasks w))
    as [(pre & t & post & Hts & Ht & Hpre & ->)|[Hall ->]]; simpl.
  - split; [done|]. split; [done|]. rewrite Hts, take_drop_middle_length.
    left. by exists pre, t, post.
  - split; [done|]. split; [done|]. by right.
Qed.

(** X2. [deleteTask] removes the first stored task that has the
    requested ID and nothing else, the other tasks keeping their order,
    and answers 204; when no stored task has that ID it answers 404 and
    the list is as before.  The counter is never moved, so a deleted ID
    is not handed out again, and the chat side is untouched. *)
Theorem deleteTask_removes id w :
  let '(r, w') := deleteTask (Some id) w in
  nextID w' = nextID w ∧ chat_frame w w'
  ∧ ((∃ pre t post, tasks w = pre ++ t :: post ∧ ID t = id
        ∧ Forall (λ x, ID x ≠ id) pre
        ∧ tasks w' = pre ++ post
        ∧ r = mkResponse StatusNoContent BodyEmpty)
     ∨ (Forall (λ x, ID x ≠ id) (tasks w)
        ∧ tasks w' = tasks w
        ∧ r = mkResponse StatusNotFound (BodyError "Task not found"))).
Proof. exact (deleteTask_cases id w). Qed.

Lemma updateTask_cases id u w :
  let '(r, w') := updateTask (Some id) (Some u) w in
  nextID w' = nextID w ∧ chat_frame w w'
  ∧ ((∃ pre t post, tasks w = pre ++ t :: post ∧ ID t = id
        ∧ Forall (λ x, ID x ≠ id) pre
        ∧ tasks w' = pre ++ patched u t :: post
        ∧ r = mkResponse StatusOK (BodyTask (patched u t)))
     ∨ (Forall (λ x, ID x ≠ id) (tasks w)
        ∧ tasks w' = tasks w
        ∧ r = mkResponse StatusNotFound (BodyError "Task not found"))).
Proof.
  unfold updateTask. simpl.
  destruct (find_task_cases id (tasks w))
    as [(pre & t & post & Hts & Ht & Hpre & ->)|[Hall ->]]; simpl.
  - split; [done|]. split; [done|].
    rewrite Hts, assign_middle, list_lookup_middle by done.
    left. by exists pre, t, post.
  - split; [done|]. split; [done|]. by right.
Qed.

Lemma patched_patched u t : patched u (patched u t) = patched u t.
Proof. unfold patched. simpl. by repeat case_decide. Qed.

Lemma reachable_store R evs :
  Z.of_nat (length evs) < int_max →
  store_ok (run R evs init).2 ∧ 1 ≤ nextID (run R evs init).2 < int_max + 1.
Proof.
  intros Hlen.
  destruct (run_store R evs init) as (Hok & Hn & _).
  - split; constructor.
  - by unfold int_min.
  - simpl. lia.
  - split; [done|]. simpl in Hn. lia.
Qed.

(** X3. Create then get: in any state the program reaches in fewer
    steps than there are [int] values, the task that [createTask]
    answers with is the one that [getTask] returns for its ID right
    afterwards. *)
Theorem create_then_get R evs task :
  Z.of_nat (length evs) < int_max →
  let w := (run R evs init).2 in
  let '(r, w1) := createTask (Some task) w in
  ∃ t, r = mkResponse StatusCreated (BodyTask t)
    ∧ ID t = nextID w
    ∧ (getTask (Some (ID t)) w1).1 = mkResponse StatusOK (BodyTask t).
Proof.
  intros Hlen w. destruct (reachable_store R evs Hlen) as [[Hlt _] _].
  fold w in Hlt. pose proof (createTask_spec task w) as H.
  destruct (createTask (Some task) w) as [r w1].
  destruct H as (-> & Ht & _). exists (created task w).
  split; [done|]. split; [done|].
  rewrite getTask_response, Ht, first_task_here; [done| |done].
  eapply Forall_impl; [exact Hlt|]. simpl. intros; lia.
Qed.

Lemma create_then_get_witness :
  let evs := [EvCreate (Some (mkTask 0 "a" "" "")); EvDelete (Some 1)] in
  let w := (run go_range evs init).2 in
  Z.of_nat (length evs) < int_max
  ∧ let '(r, w1) := createTask (Some (mkTask 5 "b" "x" "")) w in
    ∃ t, r = mkResponse StatusCreated (BodyTask t)
      ∧ ID t = nextID w
      ∧ (getTask (Some (ID t)) w1).1 = mkResponse StatusOK (BodyTask t).
Proof.
  intros evs w.
  assert (H : Z.of_nat (length evs) < int_max) by reflexivity.
  split; [exact H|].
  exact (create_then_get go_range evs (mkTask 5 "b" "x" "") H).
Defined.

(** X4. Delete then get: in any such state, after [deleteTask] for an
    ID, [getTask] for that ID answers 404, whether or not the delete
    found a task, and [getTask] for any other ID answers as it did
    before the delete. *)
Theorem delete_then_get R evs id :
  Z.of_nat (length evs) < int_max →
  let w := (run R evs init).2 in
  let w1 := (deleteTask (Some id) w).2 in
  (getTask (Some id) w1).1
    = mkResponse StatusNotFound (BodyError "Task not found")
  ∧ ∀ id', id' ≠ id →
      (getTask (Some id') w1).1 = (getTask (Some id') w).1.
Proof.
  intros Hlen w w1. destruct (reachable_store R evs Hlen) as [[_ Hnd] _].
  fold w in Hnd. subst w1. pose proof (deleteTask_cases id w) as H.
  destruct (deleteTask (Some id) w) as [r w1]. cbn [snd].
  destruct H as (_ & _ & [(pre & t & post & Hts & Ht & Hpre & Hts1 & _)
                         |(Hall & Hts1 & _)]).
  - rewrite Hts, fmap_app, fmap_cons in Hnd.
    apply NoDup_app in Hnd as (_ & _ & Hnd).
    apply NoDup_cons in Hnd as [Hnot _]. split.
    + rewrite getTask_response, Hts1, first_task_absent; [done|].
      apply Forall_app. split; [done|].
      apply Forall_forall. intros x Hx E. apply Hnot.
      rewrite Ht, <- E. by apply list_elem_of_fmap_2.
    + intros id' Hne. rewrite !getTask_response, Hts1, Hts.
      rewrite first_task_skip; [done|]. congruence.
  - split.
    + by rewrite getTask_response, Hts1, first_task_absent.
    + intros id' _. by rewrite !getTask_response, Hts1.
Qed.

Lemma delete_then_get_witness :
  let evs := [EvCreate (Some (mkTask 0 "a" "" ""));
              EvCreate (Some (mkTask 0 "b" "" ""))] in
  let w := (run go_range evs init).2 in
  let w1 := (deleteTask (Some 1) w).2 in
  Z.of_nat (length evs) < int_max
  ∧ (getTask (Some 1) w1).1
      = mkResponse StatusNotFound (BodyError "Task not found")
  ∧ ∀ id', id' ≠ 1 →
      (getTask (Some id') w1).1 = (getTask (Some id') w).1.
Proof.
  intros evs w w1.
  assert (H : Z.of_nat (length evs) < int_max) by reflexivity.
  split; [exact H|]. exact (delete_then_get go_range evs 1 H).
Defined.

Lemma step_tasks R ev w :
  (tasks (step R ev w).2 = tasks w ∧ nextID (step R ev w).2 = nextID w)
  ∨ (∃ task, tasks (step R ev w).2 = tasks w ++ [created task w]
       ∧ nextID (step R ev w).2 = int_wrap (nextID w + 1))
  ∨ (∃ u pre t post, tasks w = pre ++ t :: post
       ∧ tasks (step R ev w).2 = pre ++ patched u t :: post
       ∧ nextID (step R ev w).2 = nextID w)
  ∨ (∃ pre t post, tasks w = pre ++ t :: post
       ∧ tasks (step R ev w).2 = pre ++ post
       ∧ nextID (step R ev w).2 = nextID w).
Proof.
  destruct ev as [[|] reads|ws reads| |c'|req| |id|id req|id]; unfold step.
  - left. rewrite handleConnections_true.
    pose proof (serve_frame (next_conn w) reads (accept w)) as H.
    destruct (serve (next_conn w) reads (accept w)) as [[o rest] w'].
    by destruct H as ([Ht Hi] & _).
  - by left.
  - left. pose proof (serve_frame ws reads w) as H.
    destruct (serve ws reads w) as [[o rest] w'].
    by destruct H as ([Ht Hi] & _).
  - left. apply (hub_loop_tasks R (length (broadcast w)) w).
  - by left.
  - destruct req as [task|]; [|by left]. right. left. exists task.
    pose proof (createTask_spec task w) as H.
    destruct (createTask (Some task) w) as [r w'].
    by destruct H as (_ & Ht & Hn & _).
  - by left.
  - left. by destruct id.
  - destruct id as [id|]; [|by left]. destruct req as [u|]; [|by left].
    pose proof (updateTask_cases id u w) as H.
    destruct (updateTask (Some id) (Some u) w) as [r w']. cbn [snd].
    destruct H as (Hn & _ & [(pre & t & post & Hts & _ & _ & Hts' & _)
                            |(_ & Hts' & _)]).
    + right. right. left. by exists u, pre, t, post.
    + by left.
  - destruct id as [id|]; [|by left].
    pose proof (deleteTask_cases id w) as H.
    destruct (deleteTask (Some id) w) as [r w']. cbn [snd].
    destruct H as (Hn & _ & [(pre & t & post & Hts & _ & _ & Hts' & _)
                            |(_ & Hts' & _)]).
    + right. right. right. by exists pre, t, post.
    + by left.
Qed.

Lemma step_sorted R ev w :
  store_sorted w → 1 ≤ nextID w < int_max →
  store_sorted (step R ev w).2
  ∧ nextID w ≤ nextID (step R ev w).2 ≤ nextID w + 1.
Proof.
  intros [Hs Hb] Hn. unfold store_sorted, stored_ids in *.
  destruct (step_tasks R ev w)
    as [[-> ->]|[(task & -> & ->)|[(u & pre & t & post & Hts & -> & ->)
       |(pre & t & post & Hts & -> & ->)]]].
  - split; [done|lia].
  - rewrite int_wrap_id by (unfold int_min, int_max in *; lia).
    split; [|lia]. rewrite fmap_app. simpl. split.
    + apply StronglySorted_app_2; [|done|by repeat constructor].
      intros x1 x2 Hx1 Hx2. apply list_elem_of_singleton in Hx2 as ->.
      rewrite Forall_forall in Hb. specialize (Hb x1 Hx1). lia.
    + apply Forall_app. split.
      * eapply Forall_impl; [exact Hb|]. simpl. intros; lia.
      * repeat constructor; lia.
  - split; [|lia]. rewrite Hts in Hs, Hb.
    by rewrite fmap_app, fmap_cons in *.
  - split; [|lia]. rewrite Hts, fmap_app, fmap_cons in Hs, Hb.
    rewrite fmap_app. split.
    + apply StronglySorted_app in Hs as (H1 & H2 & H3).
      apply StronglySorted_cons in H3 as [_ H3].
      apply StronglySorted_app_2; [|done..].
      intros x1 x2 Hx1 Hx2. apply H1; [done|]. set_solver.
    + apply Forall_app in Hb as [H1 H2]. apply Forall_cons in H2 as [_ H2].
      by apply Forall_app.
Qed.

Lemma run_sorted R evs w :
  store_sorted w → 1 ≤ nextID w →
  nextID w + Z.of_nat (length evs) ≤ int_max →
  store_sorted (run R evs w).2.
Proof.
  induction evs as [|ev evs IH] in w |- *; intros Hs Hlo Hhi; [done|].
  rewrite run_cons. rewrite length_cons, Nat2Z.inj_succ in Hhi.
  destruct (step_sorted R ev w Hs) as [Hs1 Hn1]; [lia|].
  apply IH; [done|lia..].
Qed.

(** X5. In any state the program reaches in fewer steps than there are
    [int] values, the stored tasks are in strictly increasing ID order,
    which is the order of their creation, every stored ID is at least 1
    and below the counter, and [getTasks] answers 200 with that list as
    it stands. *)
Theorem getTasks_in_creation_order R evs :
  Z.of_nat (length evs) < int_max →
  let w := (run R evs init).2 in
  StronglySorted Z.lt (stored_ids w)
  ∧ Forall (λ i, 1 ≤ i < nextID w) (stored_ids w)
  ∧ (getTasks w).1 = mkResponse StatusOK (BodyTasks (tasks w)).
Proof.
  intros Hlen w.
  destruct (run_sorted R evs init) as [Hs Hb].
  - split; constructor.
  - done.
  - simpl. lia.
  - done.
Qed.

Lemma getTasks_in_creation_order_witness :
  let evs := [EvCreate (Some (mkTask 0 "a" "" ""));
              EvCreate (Some (mkTask 0 "b" "" ""));
              EvCreate (Some (mkTask 0 "c" "" "")); EvDelete (Some 2);
              EvCreate (Some (mkTask 0 "d" "" ""))] in
  let w := (run go_range evs init).2 in
  (Z.of_nat (length evs) < int_max ∧ stored_ids w = [1; 3; 4])
  ∧ StronglySorted Z.lt (stored_ids w)
  ∧ Forall (λ i, 1 ≤ i < nextID w) (stored_ids w)
  ∧ (getTasks w).1 = mkResponse StatusOK (BodyTasks (tasks w)).
Proof.
  intros evs w.
  assert (H : Z.of_nat (length evs) < int_max) by reflexivity.
  split; [by split|]. exact (getTasks_in_creation_order go_range evs H).
Defined.

(** X6. [updateTask] never adds, removes, reorders or renumbers tasks,
    whatever the ID and the body, and never moves the counter; and it is
    idempotent: sending the same update a second time gives the same
    answer and leaves the list as the first one left it. *)
Theorem updateTask_idempotent id req w :
  let '(r1, w1) := updateTask id req w in
  let '(r2, w2) := updateTask id req w1 in
  stored_ids w1 = stored_ids w
  ∧ nextID w1 = nextID w
  ∧ r2 = r1
  ∧ tasks w2 = tasks w1.
Proof.
  destruct id as [id|]; [|done]. destruct req as [u|]; [|done].
  pose proof (updateTask_cases id u w) as H1.
  destruct (updateTask (Some id) (Some u) w) as [r1 w1].
  pose proof (updateTask_cases id u w1) as H2.
  destruct (updateTask (Some id) (Some u) w1) as [r2 w2].
  unfold stored_ids.
  destruct H1 as (Hn1 & _ & [(pre & t & post & Hts & Ht & Hpre & Hts1 & ->)
                            |(Hall & Hts1 & ->)]).
  - split; [by rewrite Hts1, Hts, !fmap_app, !fmap_cons|].
    split; [done|].
    destruct H2 as (_ & _ & [(pre' & t' & post' & Hts' & Ht' & Hpre' & -> & ->)
                            |(Hall' & _)]).
    + assert (Hf : first_task id (tasks w1) = Some t')
        by (rewrite Hts'; by apply first_task_here).
      rewrite Hts1, first_task_here in Hf by done.
      injection Hf as <-. rewrite patched_patched.
      rewrite Hts1 in Hts'.
      assert (length pre = length pre') as Hlen.
      { pose proof (find_task_first id pre (patched u t) post Hpre Ht) as E1.
        pose proof (find_task_first id pre' (patched u t) post' Hpre' Ht')
          as E2.
        rewrite Hts' in E1. congruence. }
      apply app_inj_1 in Hts' as [-> [= ->]]; [|done].
      by rewrite Hts1.
    + rewrite Hts1 in Hall'. apply Forall_app in Hall' as [_ Hall'].
      apply Forall_cons in Hall' as [Hne _]. by destruct Hne.
  - split; [by rewrite Hts1|]. split; [done|].
    destruct H2 as (_ & _ & [(pre' & t' & post' & Hts' & Ht' & _)
                            |(_ & -> & ->)]); [|done].
    rewrite Hts1 in Hts'. rewrite Hts' in Hall.
    apply Forall_app in Hall as [_ Hall].
    apply Forall_cons in Hall as [Hne _]. by destruct Hne.
Qed.

(** X7. At the top of [int] the counter wraps: when [nextID] is the
    largest [int], [createTask] hands that value out and leaves the
    counter at the smallest [int], so the next task created gets a
    negative ID, below the one before it. *)
Theorem createTask_wraps t1 t2 w :
  nextID w = int_max →
  let '(r1, w1) := createTask (Some t1) w in
  let '(r2, w2) := createTask (Some t2) w1 in
  nextID w1 = int_min
  ∧ created_ids [r1; r2] = [int_max; int_min]
  ∧ int_min < int_max.
Proof.
  intros Hn. pose proof (createTask_spec t1 w) as H1.
  destruct (createTask (Some t1) w) as [r1 w1].
  pose proof (createTask_spec t2 w1) as H2.
  destruct (createTask (Some t2) w1) as [r2 w2].
  destruct H1 as (-> & _ & Hn1 & _). destruct H2 as (-> & _).
  rewrite Hn in Hn1. simpl. rewrite Hn, Hn1. by vm_compute.
Qed.

Lemma createTask_wraps_witness :
  let w := set_nextID int_max init in
  nextID w = int_max
  ∧ let '(r1, w1) := createTask (Some (mkTask 0 "a" "" "")) w in
    let '(r2, w2) := createTask (Some (mkTask 0 "b" "" "")) w1 in
    nextID w1 = int_min
    ∧ created_ids [r1; r2] = [int_max; int_min]
    ∧ int_min < int_max.
Proof.
  intros w. assert (H : nextID w = int_max) by reflexivity.
  split; [exact H|].
  exact (createTask_wraps (mkTask 0 "a" "" "") (mkTask 0 "b" "" "") w H).
Defined.

(** ** The registry along a run *)

Lemma registry_ok_removed ws s w w' :
  registry_ok w →
  clients w' = delete ws (clients w) →
  conns w' = <[ws := s]> (conns w) →
  registry_ok w'.
Proof.
  intros Hok Hm Hs c b. rewrite Hm. intros Hc.
  apply lookup_delete_Some in Hc as [Hne Hc].
  destruct (Hok c b Hc) as [-> Hopen]. split; [done|].
  unfold conn. rewrite Hs. by rewrite lookup_total_insert_ne.
Qed.

Lemma registry_ok_same w w' :
  registry_ok w → clients w' = clients w → conns w' = conns w →
  registry_ok w'.
Proof.
  intros Hok Hm Hs c b. rewrite Hm. unfold conn. rewrite Hs. apply Hok.
Qed.

Lemma registry_ok_serve ws reads w :
  registry_ok w → registry_ok (serve ws reads w).2.
Proof.
  intros Hok. pose proof (serve_frame ws reads w) as H.
  destruct (serve ws reads w) as [[o rest] w']. cbn [snd].
  destruct H as (_ & _ & _ & [(_ & Hm & Hs)|(_ & Hm & Hs)]).
  - by apply (registry_ok_same w).
  - by apply (registry_ok_removed ws (closed_state (conn ws w)) w).
Qed.

Lemma registry_ok_fanout R msg w :
  registry_ok w → registry_ok (fanout R msg w).
Proof.
  intros Hok c b. rewrite fanout_clients, fanout_conn. unfold writable.
  destruct (state_writable (conn c w)) eqn:E; [|done].
  intros Hc. destruct (Hok c b Hc) as [-> Hopen]. split; [done|].
  rewrite decide_True by done. unfold after_write. by rewrite E.
Qed.

Lemma registry_ok_hub_loop R n w :
  registry_ok w → registry_ok (hub_loop R n w).
Proof.
  induction n as [|n IH] in w |- *; intros Hok; simpl; [done|].
  unfold chan_recv. destruct (broadcast w) as [|msg q]; [done|].
  apply IH, registry_ok_fanout. by apply (registry_ok_same w).
Qed.

Lemma registry_ok_accept w : registry_ok w → registry_ok (accept w).
Proof.
  intros Hok c b. unfold accept, conn. simpl.
  destruct (decide (c = next_conn w)) as [->|Hne].
  - rewrite lookup_insert_eq, lookup_total_insert_eq. by intros [= <-].
  - rewrite lookup_insert_ne, lookup_total_insert_ne by done. apply Hok.
Qed.

Lemma registry_ok_step R ev w : registry_ok w → registry_ok (step R ev w).2.
Proof.
  intros Hok.
  destruct ev as [[|] reads|ws reads| |c'|req| |id|id req|id]; unfold step.
  - rewrite handleConnections_true.
    by apply registry_ok_serve, registry_ok_accept.
  - done.
  - by apply registry_ok_serve.
  - by apply registry_ok_hub_loop.
  - intros c b Hc. destruct (Hok c b Hc) as [-> Hopen]. split; [done|].
    unfold conn, break_transport. simpl.
    destruct (decide (c = c')) as [->|Hne].
    + by rewrite lookup_total_insert_eq.
    + by rewrite lookup_total_insert_ne.
  - destruct (createTask_chat req w) as (H1 & _ & H2 & _).
    destruct (createTask req w). by apply (registry_ok_same w).
  - destruct (getTasks_chat w) as (H1 & _ & H2 & _).
    destruct (getTasks w). by apply (registry_ok_same w).
  - destruct (getTask_chat id w) as (H1 & _ & H2 & _).
    destruct (getTask id w). by apply (registry_ok_same w).
  - destruct (updateTask_chat id req w) as (H1 & _ & H2 & _).
    destruct (updateTask id req w). by apply (registry_ok_same w).
  - destruct (deleteTask_chat id w) as (H1 & _ & H2 & _).
    destruct (deleteTask id w). by apply (registry_ok_same w).
Qed.

Lemma registry_ok_run R evs w : registry_ok w → registry_ok (run R evs w).2.
Proof.
  induction evs as [|ev evs IH] in w |- *; intros Hok; [done|].
  rewrite run_cons. by apply IH, registry_ok_step.
Qed.

(** X8. In every state the program reaches, each connection in the
    registry is stored under [true], has been returned by an upgrade, and
    has not been closed: the program closes a connection only together
    with deleting its key.  So a write to a registered connection fails
    only when its transport is broken. *)
Theorem registered_connections_open R evs :
  let w := (run R evs init).2 in
  ∀ c b, clients w !! c = Some b →
    b = true
    ∧ (c < next_conn w)%positive
    ∧ conn_closed (conn c w) = false
    ∧ writable c w = negb (conn_broken (conn c w)).
Proof.
  intros w c b Hc.
  destruct (registry_ok_run R evs init) with (i := c) (x := b)
    as [-> Hopen]; [|done|].
  { intros c' b' H. simpl in H. by rewrite lookup_empty in H. }
  split; [done|]. split.
  - apply (run_alloc_ok R evs init init_alloc_ok). by exists true.
  - split; [done|]. unfold writable, state_writable. fold w in Hopen.
    by rewrite Hopen.
Qed.

Lemma registered_connections_open_witness :
  let evs := [EvConnect true []; EvConnect true [ReadOk hi]; EvBreak connA;
              EvHub] in
  let w := (run go_range evs init).2 in
  clients w !! connB = Some true
  ∧ (true = true
     ∧ (connB < next_conn w)%positive
     ∧ conn_closed (conn connB w) = false
     ∧ writable connB w = negb (conn_broken (conn connB w))).
Proof.
  intros evs w. assert (H : clients w !! connB = Some true) by reflexivity.
  split; [exact H|].
  exact (registered_connections_open go_range evs connB true H).
Defined.

(** ** Fan-outs and the connections outside them *)

Lemma fanout_conn_absent R msg w c :
  clients w !! c = None → conn c (fanout R msg w) = conn c w.
Proof.
  intros Hc. rewrite fanout_conn, decide_False; [done|].
  rewrite Hc. by intros [? ?].
Qed.

Lemma hub_loop_conn_absent R n w c :
  clients w !! c = None → conn c (hub_loop R n w) = conn c w.
Proof.
  induction n as [|n IH] in w |- *; intros Hc; simpl; [done|].
  unfold chan_recv. destruct (broadcast w) as [|msg q]; [done|].
  rewrite IH by (by apply fanout_absent).
  by rewrite fanout_conn_absent.
Qed.

(** X9. No ghost delivery: a connection that is not in the registry
    when the hub starts on the waiting messages, for instance because its
    reader has already removed it, is not written to for any of them and
    is left exactly as it was, and it is still out of the registry
    afterwards. *)
Theorem no_ghost_delivery R w c :
  clients w !! c = None →
  let w' := handleMessages R w in
  writes_to c (wlog w') = writes_to c (wlog w)
  ∧ conn c w' = conn c w
  ∧ clients w' !! c = None.
Proof.
  intros Hc w'. subst w'. unfold handleMessages.
  destruct (hub_loop_absent R (length (broadcast w)) w c Hc) as [H1 H2].
  split; [done|]. split; [|done]. by apply hub_loop_conn_absent.
Qed.

Lemma no_ghost_delivery_witness :
  let w := (serve connB [ReadErr] alice_says_hi).2 in
  let w' := handleMessages go_range w in
  (clients w !! connB = None ∧ broadcast w = [hi])
  ∧ writes_to connB (wlog w') = writes_to connB (wlog w)
  ∧ conn connB w' = conn connB w
  ∧ clients w' !! connB = None.
Proof.
  intros w. assert (H : clients w !! connB = None) by reflexivity.
  split; [by split|]. exact (no_ghost_delivery go_range w connB H).
Defined.





(** ** From a reader to every client *)





(** ** The record of writes and what the clients received *)












